(** * History commands of Dance: repeat, repeat_edit and macro recordings

    A shallow embedding of [src/commands/history.ts].  The five commands
    [repeat], [repeat_edit], [recording_play], [recording_start] and
    [recording_stop] are translated statement by statement; asynchronous
    calls are sequenced in a state-and-exception passing style (every
    function maps a [Context] to the [Context] it leaves behind together
    with a [Completion]), so the state reached when an exception is thrown
    stays observable.

    The collaborators the commands call into (the recorder with its cursors,
    the registers, the context flags, the argument validator) live in other
    modules; they are modelled from their specification and marked as
    such. *)

From Stdlib Require Import Ascii String.
From stdpp Require Import gmap strings list fin_maps.

Local Open Scope string_scope.
Local Open Scope list_scope.

(** ** Completions and thrown values *)

(** The values the commands throw.  [Error] is [new Error(message)],
    [ArgumentError] is the validator's error class, [Thrown] stands for any
    other value thrown by the JavaScript engine or by a command that is
    re-executed. *)
Inductive Exception : Type :=
  | Error (message : string)
  | ArgumentError (message : string) (argumentName : string)
  | Thrown (description : string).

(** How a statement or a call completes.  [Diverges] is the completion of a
    loop that never exits; the theorems below show that the loops of the
    commands always exit. *)
Inductive Completion : Type :=
  | Normal
  | Throw (e : Exception)
  | Diverges.

(** A compiled regular expression, as far as the commands use it: its
    [test] method and its rendering in a string concatenation. *)
Record RegExp : Type := mkRegExp {
  toString : string;
  test : string -> bool;
}.

(** The outcome of a [for (;;)] search loop run for a bounded number of
    iterations. *)
Inductive Search (A : Type) : Type :=
  | Found (result : A)
  | Exhausted
  | OutOfFuel.

Arguments Found {A} result.
Arguments Exhausted {A}.
Arguments OutOfFuel {A}.

(** ** The host: what the editor and the JavaScript engine provide *)

(** [World] is the live state a re-executed command sees and changes (the
    editor, its selections, its mode and its cancellation token);
    [Argument] is the type of the argument objects captured with a command.
    [setMode] is the mode transition of the editor, [newRegExp] the
    constructor [new RegExp(pattern, flags)], which throws on an ill-formed
    pattern, and [isCancellationRequested] reads the cancellation token. *)
Class Host : Type := {
  World : Type;
  Argument : Type;
  setMode : string -> World -> World * Completion;
  newRegExp : string -> string -> Exception + RegExp;
  isCancellationRequested : World -> bool;
}.

Section Model.

Context `{Host}.

(** The command registry's descriptor: only the three members the history
    commands use. *)
Record CommandDescriptor : Type := mkDescriptor {
  identifier : string;
  shouldBeReplayed : bool;
  replay : Argument -> World -> World * Completion;
}.

(** ** Entries, recorder and cursors *)

Inductive Entry : Type :=
  | ExecuteCommand (descriptor : CommandDescriptor) (argument : Argument)
  | ChangeTextEditorMode (modeName : string).

(** The tag tested by [cursor.is(...)]. *)
Inductive EntryKind : Type :=
  | IsExecuteCommand
  | IsChangeTextEditorMode.

Definition kindOf (entry : Entry) : EntryKind :=
  match entry with
  | ExecuteCommand _ _ => IsExecuteCommand
  | ChangeTextEditorMode _ => IsChangeTextEditorMode
  end.

Definition EntryKind_eqb (a b : EntryKind) : bool :=
  match a, b with
  | IsExecuteCommand, IsExecuteCommand => true
  | IsChangeTextEditorMode, IsChangeTextEditorMode => true
  | _, _ => false
  end.

(** A completed recording: the sealed sequence of entries of one session. *)
Record Recording : Type := mkRecording {
  entries : list Entry;
}.

(** An active recording is a reference to a session held by the recorder. *)
Definition ActiveRecording : Type := nat.

(** Modelled from the spec: the recorder, which is defined in
    [state/recorder.ts].  It owns the history log and the sub-logs of the
    open recording sessions; [capacity] bounds the log. *)
Record Recorder : Type := mkRecorder {
  log : list Entry;
  sessions : gmap ActiveRecording (list Entry);
  capacity : nat;
}.

(** Modelled from the spec: a cursor of [state/recorder.ts], a position in
    the log of the recorder it was created from. *)
Record Cursor : Type := mkCursor {
  position : nat;
}.

(** Modelled from the spec: [Recorder.cursorFromEnd], a new cursor at the
    current log end, one past the last entry. *)
Definition cursorFromEnd (recorder : Recorder) : Cursor :=
  mkCursor (length (log recorder)).

(** Modelled from the spec: [Cursor.clone], an independent cursor at the
    same position. *)
Definition Cursor_clone (cursor : Cursor) : Cursor :=
  mkCursor (position cursor).

(** Modelled from the spec: [Cursor.entry], the entry at the position. *)
Definition Cursor_entry (recorder : Recorder) (cursor : Cursor) : option Entry :=
  log recorder !! position cursor.

(** Modelled from the spec: [Cursor.is], true iff the entry at the position
    has the given tag, false when the position is out of bounds. *)
Definition Cursor_is (recorder : Recorder) (cursor : Cursor) (kind : EntryKind) : bool :=
  match Cursor_entry recorder cursor with
  | Some entry => EntryKind_eqb (kindOf entry) kind
  | None => false
  end.

(** Modelled from the spec: [Cursor.previous], one position backward;
    false, cursor unchanged, when already at the start. *)
Definition Cursor_previous (cursor : Cursor) : Cursor * bool :=
  match position cursor with
  | 0 => (cursor, false)
  | S p => (mkCursor p, true)
  end.

(** Modelled from the spec: [Cursor.next], one position forward; false,
    position unchanged, when already at the current end of the log. *)
Definition Cursor_next (recorder : Recorder) (cursor : Cursor) : Cursor * bool :=
  if decide (length (log recorder) <= position cursor)
  then (cursor, false)
  else (mkCursor (S (position cursor)), true).

(** Modelled from the spec: [Cursor.isBeforeOrEqual], the order of the
    positions. *)
Definition Cursor_isBeforeOrEqual (cursor other : Cursor) : bool :=
  bool_decide (position cursor <= position other).

(** ** Contexts *)

Definition Register : Type := string.

(** The state the commands run against: the live editor state, the
    recorder of the extension, the do-not-record flag of the context, the
    recording held by each register, and the module-level table
    [recordingPerRegister]. *)
Record Context : Type := mkContext {
  editor : World;
  recorder : Recorder;
  doNotRecordFlag : bool;
  registers : gmap Register Recording;
  recordingPerRegister : gmap Register ActiveRecording;
}.

Definition withEditor (world : World) (ctx : Context) : Context :=
  mkContext world (recorder ctx) (doNotRecordFlag ctx)
            (registers ctx) (recordingPerRegister ctx).

Definition withRecorder (rec : Recorder) (ctx : Context) : Context :=
  mkContext (editor ctx) rec (doNotRecordFlag ctx)
            (registers ctx) (recordingPerRegister ctx).

Definition withRegisters (regs : gmap Register Recording) (ctx : Context) : Context :=
  mkContext (editor ctx) (recorder ctx) (doNotRecordFlag ctx)
            regs (recordingPerRegister ctx).

Definition withRecordingPerRegister
    (table : gmap Register ActiveRecording) (ctx : Context) : Context :=
  mkContext (editor ctx) (recorder ctx) (doNotRecordFlag ctx)
            (registers ctx) table.

(** Modelled from the spec: [Context.doNotRecord], which sets the flag that
    suppresses the logging of the running command. *)
Definition doNotRecord (ctx : Context) : Context :=
  mkContext (editor ctx) (recorder ctx) true
            (registers ctx) (recordingPerRegister ctx).

(** Runs a transition of the live state inside a context. *)
Definition onEditor (step : World -> World * Completion) (ctx : Context)
    : Context * Completion :=
  let (world, completion) := step (editor ctx) in
  (withEditor world ctx, completion).

(** [await commandDescriptor.replay(_, commandArgument)]. *)
Definition CommandDescriptor_replay
    (descriptor : CommandDescriptor) (ctx : Context) (argument : Argument)
    : Context * Completion :=
  onEditor (replay descriptor argument) ctx.

(** Modelled from the spec: replaying one entry.  An [ExecuteCommand] entry
    invokes the replay of its descriptor with the captured argument, a mode
    change triggers the mode transition; nothing is appended to the log. *)
Definition Entry_replay (entry : Entry) (ctx : Context) : Context * Completion :=
  match entry with
  | ExecuteCommand descriptor argument =>
      CommandDescriptor_replay descriptor ctx argument
  | ChangeTextEditorMode modeName =>
      onEditor (setMode modeName) ctx
  end.

(** Modelled from the spec: [Cursor.replay], which replays the entry at the
    position; dereferencing a position without an entry is an assertion
    failure. *)
Definition Cursor_replay (cursor : Cursor) (ctx : Context) : Context * Completion :=
  match Cursor_entry (recorder ctx) cursor with
  | Some entry => Entry_replay entry ctx
  | None => (ctx, Throw (Thrown "assertion failed: no entry at the cursor"))
  end.

(** Replaying a sequence of entries in order, stopping at the first one
    that does not complete normally. *)
Fixpoint replay_entries (sequence : list Entry) (ctx : Context) : Context * Completion :=
  match sequence with
  | [] => (ctx, Normal)
  | entry :: rest =>
      match Entry_replay entry ctx with
      | (ctx', Normal) => replay_entries rest ctx'
      | (ctx', completion) => (ctx', completion)
      end
  end.

(** Modelled from the spec: [Recording.replay], which replays the entire
    recording, entry by entry in recorded order. *)
Definition Recording_replay (recording : Recording) (ctx : Context)
    : Context * Completion :=
  replay_entries (entries recording) ctx.

(** Modelled from the spec: [ArgumentError.validate] of [utils/errors.ts],
    which throws an [ArgumentError] naming the argument when the condition
    does not hold. *)
Definition ArgumentError_validate
    (argumentName : string) (condition : bool) (message : string) : Completion :=
  if condition then Normal else Throw (ArgumentError message argumentName).

(** ** Loops *)

(** [for (let i = 0; i < repetitions; i++) { await body }], by recursion on
    the iterations that remain. *)
Fixpoint forRepetitions (repetitions : nat)
    (body : Context -> Context * Completion) (ctx : Context) : Context * Completion :=
  match repetitions with
  | 0 => (ctx, Normal)
  | S remaining =>
      match body ctx with
      | (ctx', Normal) => forRepetitions remaining body ctx'
      | (ctx', completion) => (ctx', completion)
      end
  end.

(** The number of iterations granted to a loop over the log: one more than
    there are cursor positions before the log end. *)
Definition iterations (recorder : Recorder) : nat :=
  S (length (log recorder)).

(** ** Recorder operations used by the recording commands *)

(** Modelled from the spec: [Recorder.append], which adds the entry to the
    end of the log and to the sub-log of every open session, evicting the
    oldest entries once the capacity is exceeded. *)
Definition Recorder_append (recorder : Recorder) (entry : Entry) : Recorder :=
  let appended := log recorder ++ [entry] in
  mkRecorder (drop (length appended - capacity recorder) appended)
             ((fun sublog => sublog ++ [entry]) <$> sessions recorder)
             (capacity recorder).

(** Modelled from the spec: [Recorder.startRecording], which opens a new
    session with an empty sub-log and returns the reference to it. *)
Definition startRecording (recorder : Recorder) : Recorder * ActiveRecording :=
  let session := fresh (dom (sessions recorder)) in
  (mkRecorder (log recorder) (<[session := []]> (sessions recorder))
              (capacity recorder),
   session).

(** Modelled from the spec: [ActiveRecording.complete], which closes the
    session and seals its sub-log into a recording. *)
Definition ActiveRecording_complete
    (recorder : Recorder) (recording : ActiveRecording) : Recorder * Recording :=
  (mkRecorder (log recorder) (delete recording (sessions recorder))
              (capacity recorder),
   mkRecording (default [] (sessions recorder !! recording))).

(** [map.has(key)] of a [WeakMap]. *)
Definition has {V : Type} (table : gmap Register V) (key : Register) : bool :=
  match table !! key with
  | Some _ => true
  | None => false
  end.

(** [value !== undefined]. *)
Definition isDefined {V : Type} (value : option V) : bool :=
  match value with
  | Some _ => true
  | None => false
  end.

(** ** repeat *)

(** The [filter] argument: a pattern string or a regular expression. *)
Inductive Filter : Type :=
  | FilterString (pattern : string)
  | FilterRegExp (regexp : RegExp).

Definition isLineTerminator (c : ascii) : bool :=
  (Ascii.eqb c (ascii_of_nat 10) || Ascii.eqb c (ascii_of_nat 13))%bool.

(** The default value [/.+/] of [filter]: it matches the strings that hold
    a character other than a line terminator. *)
Definition defaultFilter : RegExp :=
  mkRegExp "/.+/"
           (fun s => existsb (fun c => negb (isLineTerminator c))
                             (list_ascii_of_string s)).

(** Lines 64 to 68: the default value, and the compilation of a pattern
    string with the flag [u]. *)
Definition resolveFilter (filter : option Filter) : Exception + RegExp :=
  match filter with
  | None => inr defaultFilter
  | Some (FilterString pattern) => newRegExp pattern "u"
  | Some (FilterRegExp regexp) => inr regexp
  end.

(** The condition under which the search of [repeat] stops at an entry. *)
Definition eligible (filter : RegExp) (descriptor : CommandDescriptor) : bool :=
  (shouldBeReplayed descriptor && test filter (identifier descriptor))%bool.

(** Lines 75 to 90: the backward search of [repeat]. *)
Fixpoint repeat_search (fuel : nat) (recorder : Recorder) (filter : RegExp)
    (cursor : Cursor) : Search (CommandDescriptor * Argument) :=
  match fuel with
  | 0 => OutOfFuel
  | S fuel =>
      let continue :=
        match Cursor_previous cursor with
        | (cursor, true) => repeat_search fuel recorder filter cursor
        | (_, false) => Exhausted
        end in
      if Cursor_is recorder cursor IsExecuteCommand then
        match Cursor_entry recorder cursor with
        | Some (ExecuteCommand descriptor argument) =>
            if eligible filter descriptor
            then Found (descriptor, argument)
            else continue
        | _ => continue
        end
      else continue
  end.

Definition repeat (ctx : Context) (repetitions : nat) (filter : option Filter)
    : Context * Completion :=
  match resolveFilter filter with
  | inl e => (ctx, Throw e)
  | inr filter =>
      let cursor := cursorFromEnd (recorder ctx) in
      match repeat_search (iterations (recorder ctx)) (recorder ctx) filter cursor with
      | Found (commandDescriptor, commandArgument) =>
          forRepetitions repetitions
            (fun ctx => CommandDescriptor_replay commandDescriptor ctx commandArgument)
            ctx
      | Exhausted =>
          (ctx, Throw (Error ("no previous command matching " +:+ toString filter)))
      | OutOfFuel => (ctx, Diverges)
      end
  end.

(** ** repeat_edit *)

(** Lines 111 to 130: the search for the edit span.  The result is the pair
    of [startCursor] and [endCursor]. *)
Fixpoint edit_search (fuel : nat) (recorder : Recorder)
    (cursor : Cursor) (endCursor : option Cursor) : Search (Cursor * Cursor) :=
  match fuel with
  | 0 => OutOfFuel
  | S fuel =>
      let continue (cursor : Cursor) (endCursor : option Cursor) :=
        match Cursor_previous cursor with
        | (cursor, true) => edit_search fuel recorder cursor endCursor
        | (_, false) => Exhausted
        end in
      if Cursor_is recorder cursor IsChangeTextEditorMode then
        match Cursor_entry recorder cursor with
        | Some (ChangeTextEditorMode modeName) =>
            if String.eqb modeName "normal" then
              let cursor := fst (Cursor_previous cursor) in
              continue cursor (Some (Cursor_clone cursor))
            else
              match String.eqb modeName "insert", endCursor with
              | true, Some endCursor =>
                  let cursor := fst (Cursor_next recorder cursor) in
                  Found (Cursor_clone cursor, endCursor)
              | _, _ => continue cursor endCursor
              end
        | _ => continue cursor endCursor
        end
      else continue cursor endCursor
  end.

(** Line 133 to 135: the walk from a cursor up to [endCursor] included,
    replaying the entry at every stop. *)
Fixpoint replay_span (fuel : nat) (cursor endCursor : Cursor) (ctx : Context)
    : Context * Completion :=
  match fuel with
  | 0 => (ctx, Diverges)
  | S fuel =>
      if Cursor_isBeforeOrEqual cursor endCursor then
        match Cursor_replay cursor ctx with
        | (ctx', Normal) =>
            replay_span fuel (fst (Cursor_next (recorder ctx') cursor)) endCursor ctx'
        | (ctx', completion) => (ctx', completion)
        end
      else (ctx, Normal)
  end.

Definition repeat_edit (ctx : Context) (repetitions : nat) : Context * Completion :=
  let ctx := doNotRecord ctx in
  let cursor := cursorFromEnd (recorder ctx) in
  match edit_search (iterations (recorder ctx)) (recorder ctx) cursor None with
  | Found (startCursor, endCursor) =>
      forRepetitions repetitions
        (fun ctx =>
           replay_span (iterations (recorder ctx))
                       (Cursor_clone startCursor) endCursor ctx)
        ctx
  | Exhausted =>
      (ctx, Throw (Error "cannot find switch to normal or insert mode"))
  | OutOfFuel => (ctx, Diverges)
  end.

(** ** recording_play, recording_start, recording_stop *)

Definition doubleQuote : string := String (ascii_of_nat 34) EmptyString.

Definition noRecordingMessage (register : Register) : string :=
  "register " +:+ doubleQuote +:+ register +:+ doubleQuote
    +:+ " does not hold a recording".

Definition recording_play (ctx : Context) (repetitions : nat) (register : Register)
    : Context * Completion :=
  let recording := registers ctx !! register in
  match ArgumentError_validate "recording" (isDefined recording)
                               (noRecordingMessage register), recording with
  | Normal, Some recording =>
      forRepetitions repetitions (Recording_replay recording) ctx
  | Normal, None =>
      (ctx, Throw (Thrown "TypeError: recording is undefined"))
  | completion, _ => (ctx, completion)
  end.

Definition recording_start (ctx : Context) (register : Register)
    : Context * Completion :=
  match ArgumentError_validate "register"
          (negb (has (recordingPerRegister ctx) register))
          "a recording is already active" with
  | Normal =>
      let (recorder', recording) := startRecording (recorder ctx) in
      (withRecordingPerRegister
         (<[register := recording]> (recordingPerRegister ctx))
         (withRecorder recorder' ctx),
       Normal)
  | completion => (ctx, completion)
  end.

Definition recording_stop (ctx : Context) (register : Register)
    : Context * Completion :=
  let recording := recordingPerRegister ctx !! register in
  match ArgumentError_validate "register" (isDefined recording)
          "no recording is active in the given register", recording with
  | Normal, Some recording =>
      let ctx := withRecordingPerRegister
                   (delete register (recordingPerRegister ctx)) ctx in
      let (recorder', completed) :=
        ActiveRecording_complete (recorder ctx) recording in
      (withRegisters (<[register := completed]> (registers ctx))
                     (withRecorder recorder' ctx),
       Normal)
  | Normal, None =>
      (ctx, Throw (Thrown "TypeError: recording is undefined"))
  | completion, _ => (ctx, completion)
  end.

(** ** Recording of executed commands *)

(** Modelled from the spec: the dispatcher of the command registry, which
    is defined in [commands/index.ts].  It runs the handler of a command in
    a context of its own and, unless the handler set the do-not-record
    flag, appends an [ExecuteCommand] entry for the command to the log. *)
Definition execute (descriptor : CommandDescriptor) (argument : Argument)
    (handler : Context -> Context * Completion) (ctx : Context)
    : Context * Completion :=
  let fresh := mkContext (editor ctx) (recorder ctx) false
                         (registers ctx) (recordingPerRegister ctx) in
  let (ctx', completion) := handler fresh in
  (if doNotRecordFlag ctx'
   then ctx'
   else withRecorder
          (Recorder_append (recorder ctx') (ExecuteCommand descriptor argument))
          ctx',
   completion).

(** The recording status of a register. *)
Inductive Status : Type :=
  | Idle
  | Recording_active.

Definition status (ctx : Context) (register : Register) : Status :=
  if has (recordingPerRegister ctx) register then Recording_active else Idle.

(** ** Notions used to state the properties *)

(** [framed ctx ctx'] holds when [ctx'] differs from [ctx] in the live
    editor state at most. *)
Definition framed (ctx ctx' : Context) : Prop :=
  ctx' = withEditor (editor ctx') ctx.

(** An entry at which the search of [repeat] stops: an [ExecuteCommand]
    whose descriptor is to be replayed and whose identifier matches. *)
Definition entry_eligible (filter : RegExp) (entry : Entry) : bool :=
  match entry with
  | ExecuteCommand descriptor _ => eligible filter descriptor
  | ChangeTextEditorMode _ => false
  end.

(** The entry at a position is a change to the given mode. *)
Definition changesModeAt (recorder : Recorder) (index : nat) (modeName : string) : Prop :=
  log recorder !! index = Some (ChangeTextEditorMode modeName).

(** An entry that is not a change to the given mode. *)
Definition notChangeTo (modeName : string) (entry : Entry) : Prop :=
  entry <> ChangeTextEditorMode modeName.

(** The entries between two cursors, both included, in log order. *)
Definition span (recorder : Recorder) (startCursor endCursor : Cursor) : list Entry :=
  take (S (position endCursor) - position startCursor)
       (drop (position startCursor) (log recorder)).

(** The open sessions of the recorder and the registers that are recording
    correspond one to one. *)
Definition oneSessionPerRegister (ctx : Context) : Prop :=
  (forall register session,
      recordingPerRegister ctx !! register = Some session ->
      is_Some (sessions (recorder ctx) !! session))
  /\ (forall register1 register2 session,
      recordingPerRegister ctx !! register1 = Some session ->
      recordingPerRegister ctx !! register2 = Some session ->
      register1 = register2)
  /\ (forall session,
      is_Some (sessions (recorder ctx) !! session) ->
      exists register, recordingPerRegister ctx !! register = Some session).

End Model.


(** * Dynamic code: run, compileFunction, clearCache *)

(** What the JavaScript engine and the module loader provide to [run].
    [newAsyncFunction] is the constructor [new AsyncFunction(...names,
    body)], which either returns a function or throws a value, given here
    by its rendering in a template string; [moduleExports] lists the
    enumerable properties of the [exports] object in enumeration order,
    [vscodeModule] is the [vscode] module, and [clock] is the reading that
    the n-th call of [Date.now()] returns. *)
Class Engine : Type := {
  Value : Type;
  CompiledFunction : Type;
  newAsyncFunction : list string -> string -> string + CompiledFunction;
  moduleExports : list (string * Value);
  vscodeModule : Value;
  clock : nat -> Z;
}.

Section Run.

Context `{Engine}.

(** The module-level state: the flag [canRunArbitraryCode], the map
    [functionCache], the arrays [cachedParameterNames] and
    [cachedParameters], and the number of clock readings made so far. *)
Record RunState : Type := mkRunState {
  canRunArbitraryCode : bool;
  functionCache : gmap string (CompiledFunction * Z);
  cachedParameterNames : list string;
  cachedParameters : list Value;
  clockReadings : nat;
}.

Definition initialRunState : RunState :=
  mkRunState true ∅ [] [] 0.

Definition withFunctionCache
    (cache : gmap string (CompiledFunction * Z)) (st : RunState) : RunState :=
  mkRunState (canRunArbitraryCode st) cache (cachedParameterNames st)
             (cachedParameters st) (clockReadings st).

(** [Date.now()]. *)
Definition Date_now (st : RunState) : RunState * Z :=
  (mkRunState (canRunArbitraryCode st) (functionCache st)
              (cachedParameterNames st) (cachedParameters st)
              (S (clockReadings st)),
   clock (clockReadings st)).

(** Lines 254 to 269. *)
Definition ensureCacheIsPopulated (st : RunState) : RunState :=
  if decide (0 < length (cachedParameterNames st))
  then st
  else mkRunState (canRunArbitraryCode st) (functionCache st)
                  ((cachedParameterNames st ++ (fst <$> moduleExports)) ++ ["vscode"])
                  ((cachedParameters st ++ (snd <$> moduleExports)) ++ [vscodeModule])
                  (clockReadings st).

Definition parameterNames (st : RunState) : RunState * list string :=
  let st := ensureCacheIsPopulated st in
  (st, cachedParameterNames st).

Definition parameterValues (st : RunState) : RunState * list Value :=
  let st := ensureCacheIsPopulated st in
  (st, cachedParameters st).

(** [run.disable]. *)
Definition disable (st : RunState) : RunState :=
  mkRunState false (functionCache st) (cachedParameterNames st)
             (cachedParameters st) (clockReadings st).

(** *** The safe expressions *)

Definition singleQuote : ascii := ascii_of_nat 39.

Definition isQuote (c : ascii) : bool :=
  (Ascii.eqb c (ascii_of_nat 34) || Ascii.eqb c singleQuote)%bool.

(** [\w]: a letter, a digit or an underscore. *)
Definition isWordCharacter (c : ascii) : bool :=
  let n := nat_of_ascii c in
  (Nat.leb 48 n && Nat.leb n 57 || Nat.leb 65 n && Nat.leb n 90
   || Nat.leb 97 n && Nat.leb n 122 || Nat.eqb n 95)%bool.

(** [[i0-9]]. *)
Definition isIndexCharacter (c : ascii) : bool :=
  let n := nat_of_ascii c in
  (Ascii.eqb c "i" || Nat.leb 48 n && Nat.leb n 57)%bool.

(** Matching a literal at the head of the input: what is left of it. *)
Fixpoint literal (expected input : list ascii) : option (list ascii) :=
  match expected, input with
  | [], _ => Some input
  | e :: expected, c :: input =>
      if Ascii.eqb e c then literal expected input else None
  | _ :: _, [] => None
  end.

(** Matching one character of a class. *)
Definition oneOf (class : ascii -> bool) (input : list ascii) : option (list ascii) :=
  match input with
  | c :: input => if class c then Some input else None
  | [] => None
  end.

(** Matching as many characters of a class as there are. *)
Fixpoint many (class : ascii -> bool) (input : list ascii) : list ascii :=
  match input with
  | c :: rest => if class c then many class rest else input
  | [] => []
  end.

(** Matching the parts of a pattern one after the other. *)
Fixpoint inSequence (parts : list (list ascii -> option (list ascii)))
    (input : list ascii) : option (list ascii) :=
  match parts with
  | [] => Some input
  | part :: parts =>
      match part input with
      | Some rest => inSequence parts rest
      | None => None
      end
  end.

Definition characters (s : string) : list ascii := list_ascii_of_string s.

(** The first safe expression: [i], optionally followed by [ + 1]. *)
Definition safeIndex (code : string) : bool :=
  match literal (characters "i") (characters code) with
  | Some [] => true
  | Some rest =>
      match literal (characters " + 1") rest with
      | Some [] => true
      | _ => false
      end
  | None => false
  end.

(** The second safe expression: a template string that awaits the read of
    a register at an index, compared with the string [false].  Neither
    repetition of the pattern can give back a character to what follows
    it, so the pattern is matched from left to right. *)
Definition safeRegisterTest (code : string) : bool :=
  match
    inSequence
      [literal (characters "`${await register(");
       oneOf isQuote;
       oneOf isWordCharacter;
       fun input => Some (many isWordCharacter input);
       oneOf isQuote;
       literal (characters ",");
       fun input => Some (many (Ascii.eqb " ") input);
       oneOf isIndexCharacter;
       literal (characters ")}` !== ");
       oneOf isQuote;
       literal (characters "false");
       oneOf isQuote]
      (characters code)
  with
  | Some [] => true
  | _ => false
  end.

Definition safeExpressions : list (string -> bool) :=
  [safeIndex; safeRegisterTest].

Definition lineFeed : string := String (ascii_of_nat 10) EmptyString.

(** *** compileFunction, clearCache, run *)

(** Lines 324 to 349. *)
Definition compileFunction (st : RunState) (code : string)
    (additionalParameterNames : list string)
    : RunState * (Exception + CompiledFunction) :=
  if (negb (canRunArbitraryCode st)
      && negb (existsb (fun re => re code) safeExpressions))%bool
  then (st, inl (Error "execution of arbitrary code is disabled"))
  else
    match functionCache st !! code with
    | Some (func, _) =>
        let (st, now) := Date_now st in
        (withFunctionCache (<[code := (func, now)]> (functionCache st)) st,
         inr func)
    | None =>
        let (st, names) := parameterNames st in
        match newAsyncFunction (names ++ additionalParameterNames)
                               ("{" +:+ lineFeed +:+ code +:+ lineFeed +:+ "}") with
        | inl e =>
            (st, inl (Error ("cannot parse function body: " +:+ code
                               +:+ ": " +:+ e)))
        | inr func =>
            let (st, now) := Date_now st in
            (withFunctionCache (<[code := (func, now)]> (functionCache st)) st,
             inr func)
        end
    end.

(** Lines 363 to 380; [None] is the call without an argument, which clears
    what was not used in the last five minutes. *)
Definition clearCache (st : RunState) (olderThanMs : option Z) : RunState :=
  let olderThanMs := default (1000 * 60 * 5)%Z olderThanMs in
  if decide (olderThanMs = 0%Z)
  then withFunctionCache ∅ st
  else
    let (st, now) := Date_now st in
    let olderThan := (now - olderThanMs)%Z in
    withFunctionCache
      (filter (fun entry => ~ (snd (snd entry) < olderThan)%Z) (functionCache st))
      st.

(** The [strings] argument of [run]. *)
Inductive Codes : Type :=
  | OneString (code : string)
  | ManyStrings (codes : list string).

(** The functions [run] calls, each with its arguments: one call for a
    single string, a call per string, all started in order, for an
    array. *)
Inductive Calls : Type :=
  | SingleCall (func : CompiledFunction) (arguments : list Value)
  | AllCalls (calls : list (CompiledFunction * list Value)).

(** Lines 231 to 233: the loop that compiles every string. *)
Fixpoint compileAll (st : RunState) (strings : list string)
    (names : list string) (functions : list CompiledFunction)
    : RunState * (Exception + list CompiledFunction) :=
  match strings with
  | [] => (st, inr functions)
  | code :: strings =>
      match compileFunction st code names with
      | (st, inl e) => (st, inl e)
      | (st, inr func) => compileAll st strings names (functions ++ [func])
      end
  end.

(** Lines 222 to 249.  [context] lists the properties of the context
    object in enumeration order. *)
Definition run (st : RunState) (strings : Codes) (context : list (string * Value))
    : RunState * (Exception + Calls) :=
  let codes :=
    match strings with
    | OneString code => [code]
    | ManyStrings codes => codes
    end in
  match compileAll st codes (fst <$> context) [] with
  | (st, inl e) => (st, inl e)
  | (st, inr functions) =>
      let (st, values) := parameterValues st in
      match strings, functions with
      | OneString _, func :: _ =>
          (st, inr (SingleCall func (values ++ (snd <$> context))))
      | OneString _, [] =>
          (st, inl (Thrown "TypeError: functions[0] is not a function"))
      | ManyStrings _, _ =>
          (st, inr (AllCalls ((fun func => (func, values ++ (snd <$> context)))
                                <$> functions)))
      end
  end.

(** The operations of the module, as a client can sequence them. *)
Inductive RunOperation : Type :=
  | CallCompileFunction (code : string) (additionalParameterNames : list string)
  | CallClearCache (olderThanMs : option Z)
  | CallDisable
  | CallRun (strings : Codes) (context : list (string * Value))
  | CallParameterNames
  | CallParameterValues.

Definition perform (st : RunState) (operation : RunOperation) : RunState :=
  match operation with
  | CallCompileFunction code names => fst (compileFunction st code names)
  | CallClearCache olderThanMs => clearCache st olderThanMs
  | CallDisable => disable st
  | CallRun strings context => fst (run st strings context)
  | CallParameterNames => fst (parameterNames st)
  | CallParameterValues => fst (parameterValues st)
  end.

(** The two parameter arrays are either both empty or hold the exports
    followed by the [vscode] module. *)
Definition parametersAligned (st : RunState) : Prop :=
  (cachedParameterNames st = [] /\ cachedParameters st = [])
  \/ (cachedParameterNames st = (fst <$> moduleExports) ++ ["vscode"]
      /\ cachedParameters st = (snd <$> moduleExports) ++ [vscodeModule]).

(** Whether [compileFunction] goes past its first test. *)
Definition permitted (st : RunState) (code : string) : bool :=
  (canRunArbitraryCode st || existsb (fun re => re code) safeExpressions)%bool.

End Run.

(** * Validation of the strings given to switchRun *)

(** The two string utilities [switchRun.validate] relies on: [isBlank s] is
    [s.trim().length === 0], and [parseRegExpWithReplacement] of
    [utils/regexp.ts] is given by the exception it throws, if any. *)
Class Strings : Type := {
  isBlank : string -> bool;
  parseRegExpWithReplacement : string -> option Exception;
}.

Section Validate.

Context `{Engine} `{Strings}.

(** Lines 623 to 641; the result is the exception thrown, if any. *)
Definition validate (st : RunState) (string : string)
    : RunState * option Exception :=
  if isBlank string
  then (st, Some (Error "the given string cannot be empty"))
  else
    let compiled :=
      match compileFunction st ("return " +:+ string) ["$"; "i"; "$$"] with
      | (st, inl e) => (st, Some e)
      | (st, inr _) => (st, None)
      end in
    match string with
    | String first rest =>
        if Ascii.eqb first "/" then (st, parseRegExpWithReplacement string)
        else if Ascii.eqb first "#" then
          if isBlank rest
          then (st, Some (Error "the given shell command cannot be empty"))
          else (st, None)
        else compiled
    | EmptyString => compiled
    end.

End Validate.

(** * Running several commands: command and commands *)

(** The values given as commands, as far as [commands] tells them apart. *)
#[warnings="-register-all"]
Inductive Any : Type :=
  | AnyUndefined
  | AnyString (s : string)
  | AnyArray (elements : list Any)
  | AnyObject (properties : list (string * Any))
  | AnyOther (description : string).

(** The command registry and the editor, as [commands] uses them:
    [commandsByName] is the table of the Dance commands, [requiresInput] is
    [descriptor.input !== InputKind.None], [getInput] asks for the input of
    a command, [executeCommand] is [vscode.commands.executeCommand] and
    [executeMany] is [CommandDescriptor.executeMany]. *)
Class Registry : Type := {
  EditorState : Type;
  RegisteredCommand : Type;
  InputValue : Type;
  commandsByName : string -> option RegisteredCommand;
  requiresInput : RegisteredCommand -> bool;
  getInput : RegisteredCommand -> Any -> EditorState
             -> EditorState * (Exception + option InputValue);
  executeCommand : string -> Any -> EditorState -> EditorState * (Exception + Any);
  executeMany : list (RegisteredCommand * option InputValue * Any) -> EditorState
                -> EditorState * option Exception;
  JSON_stringify : string -> string;
}.

Section Commands.

Context `{Registry}.

(** [new CommandState(descriptor, input, extension, commandArguments)]. *)
Definition CommandState : Type := (RegisteredCommand * option InputValue * Any)%type.

(** An element of [batches]: an array of command states, or the pair of
    the name and the arguments of a command that is not a Dance command. *)
Inductive Batch : Type :=
  | DanceBatch (states : list CommandState)
  | ExternalCommand (commandName : string) (commandArguments : Any).

(** Lines 387 to 389 and 432 to 434: a leading dot stands for the prefix
    of the Dance commands. *)
Definition qualify (commandName : string) : string :=
  if String.prefix "." commandName then "dance" +:+ commandName else commandName.

(** Lines 386 to 391. *)
Definition command (commandName : string) (arguments : Any)
    (editor : EditorState) : EditorState * (Exception + Any) :=
  executeCommand (qualify commandName) arguments editor.

Definition propertyOf (properties : list (string * Any)) (key : string) : Any :=
  match find (fun property => String.eqb (fst property) key) properties with
  | Some property => snd property
  | None => AnyUndefined
  end.

(** Lines 409 to 430: the name and the arguments of a command. *)
Definition nameAndArguments (command : Any) : Exception + (string * Any) :=
  match command with
  | AnyString commandName => inr (commandName, AnyUndefined)
  | AnyArray elements =>
      match elements with
      | AnyString commandName :: rest => inr (commandName, AnyArray rest)
      | _ =>
          inl (Error "the first element of a command tuple must be a command name")
      end
  | AnyObject properties =>
      match propertyOf properties "command" with
      | AnyString commandName => inr (commandName, propertyOf properties "args")
      | _ =>
          inl (Error ("the " +:+ doubleQuote +:+ "command" +:+ doubleQuote
                        +:+ " property of a command object must be a command name"))
      end
  | _ =>
      inl (Error "commands must be command names, {command: string, args: any} objects or arrays")
  end.

(** Lines 461 to 463. *)
Definition flush (batches : list Batch) (currentBatch : list CommandState)
    : list Batch :=
  if decide (0 < length currentBatch)
  then batches ++ [DanceBatch currentBatch]
  else batches.

(** Lines 403 to 463: building and validating the batches. *)
Fixpoint buildBatches (commands : list Any) (batches : list Batch)
    (currentBatch : list CommandState) (editor : EditorState)
    : EditorState * (Exception + list Batch) :=
  match commands with
  | [] => (editor, inr (flush batches currentBatch))
  | command :: commands =>
      match nameAndArguments command with
      | inl e => (editor, inl e)
      | inr (commandName, commandArguments) =>
          let commandName := qualify commandName in
          match commandsByName commandName with
          | Some descriptor =>
              match getInput descriptor commandArguments editor with
              | (editor, inl e) => (editor, inl e)
              | (editor, inr input) =>
                  if (requiresInput descriptor && negb (isDefined input))%bool
                  then (editor, inr (flush batches currentBatch))
                  else buildBatches commands batches
                         (currentBatch ++ [(descriptor, input, commandArguments)])
                         editor
              end
          | None =>
              if String.prefix "dance." commandName
              then (editor,
                    inl (Error ("Dance command " +:+ JSON_stringify commandName
                                  +:+ " does not exist")))
              else
                buildBatches commands
                  (flush batches currentBatch
                     ++ [ExternalCommand commandName commandArguments])
                  [] editor
          end
      end
  end.

(** Lines 466 to 480: executing the batches. *)
Fixpoint executeBatches (batches : list Batch) (results : list Any)
    (editor : EditorState) : EditorState * (Exception + list Any) :=
  match batches with
  | [] => (editor, inr results)
  | ExternalCommand commandName commandArguments :: batches =>
      match executeCommand commandName commandArguments editor with
      | (editor, inl e) => (editor, inl e)
      | (editor, inr result) => executeBatches batches (results ++ [result]) editor
      end
  | DanceBatch states :: batches =>
      match executeMany states editor with
      | (editor, Some e) => (editor, inl e)
      | (editor, None) =>
          executeBatches batches
            (results ++ replicate (length states) AnyUndefined) editor
      end
  end.

(** Lines 396 to 481. *)
Definition commands (commands : list Any) (editor : EditorState)
    : EditorState * (Exception + list Any) :=
  match buildBatches commands [] [] editor with
  | (editor, inl e) => (editor, inl e)
  | (editor, inr batches) => executeBatches batches [] editor
  end.

(** A batch of Dance commands. *)
Definition isDanceBatch (batch : Batch) : bool :=
  match batch with
  | DanceBatch _ => true
  | ExternalCommand _ _ => false
  end.

(** No two batches of Dance commands follow each other. *)
Definition alternating (batches : list Batch) : Prop :=
  forall index first second,
    batches !! index = Some first ->
    batches !! S index = Some second ->
    isDanceBatch first = true ->
    isDanceBatch second = false.



(** Every batch is well formed: a batch of Dance commands is not empty,
    and a command run by the editor has a name that is not in the table of
    the Dance commands and starts neither with a dot nor with the prefix
    of the Dance commands. *)
Definition wellFormedBatch (batch : Batch) : Prop :=
  match batch with
  | DanceBatch states => states <> []
  | ExternalCommand commandName _ =>
      commandsByName commandName = None
      /\ String.prefix "dance." commandName = false
      /\ String.prefix "." commandName = false
  end.


End Commands.

(** ** A concrete host and logs, used to run the commands *)

Module Demo.

(** The live state is a journal of what was done to the editor, paired
    with the state of the cancellation token. *)
Definition journal (line : string) (world : list string * bool)
    : (list string * bool) * Completion :=
  ((fst world ++ [line], snd world), Normal).

(** A toy engine: a pattern matches the strings it occurs in, and the
    pattern [(] is ill-formed. *)
Definition compile (pattern flags : string) : Exception + RegExp :=
  if String.eqb pattern "("
  then inl (Thrown "SyntaxError: unterminated group")
  else inr (mkRegExp ("/" +:+ pattern +:+ "/" +:+ flags)
                     (fun s => isDefined (index 0 pattern s))).

#[export] Instance host : Host := {|
  World := list string * bool;
  Argument := string;
  setMode := fun modeName => journal ("mode " +:+ modeName);
  newRegExp := compile;
  isCancellationRequested := snd;
|}.

Definition seek : CommandDescriptor :=
  mkDescriptor "dance.seek" true (fun argument => journal ("seek " +:+ argument)).

Definition insertText : CommandDescriptor :=
  mkDescriptor "dance.edit.insert" true
               (fun argument => journal ("insert " +:+ argument)).

(** A command that is never replayed. *)
Definition repeatCommand : CommandDescriptor :=
  mkDescriptor "dance.history.repeat" false
               (fun argument => journal ("repeat " +:+ argument)).

(** A command whose replay succeeds twice and throws from then on, leaving
    its mark in the journal. *)
Definition flaky : CommandDescriptor :=
  mkDescriptor "dance.flaky" true
    (fun argument world =>
       ((fst world ++ ["flaky " +:+ argument], snd world),
        if decide (length (fst world) < 2) then Normal
        else Throw (Thrown "flaky failed"))).

Definition context (entries : list Entry) (cancelled : bool) : Context :=
  mkContext ([], cancelled) (mkRecorder entries ∅ 1000) false ∅ ∅.

Definition seekLog : list Entry :=
  [ExecuteCommand seek "a"; ExecuteCommand insertText "x";
   ExecuteCommand seek "b"; ExecuteCommand repeatCommand "r";
   ChangeTextEditorMode "normal"].

Definition editLog : list Entry :=
  [ExecuteCommand seek "a"; ChangeTextEditorMode "insert";
   ExecuteCommand insertText "x"; ExecuteCommand insertText "y";
   ChangeTextEditorMode "normal"; ExecuteCommand seek "b"].

Definition flakyLog : list Entry :=
  [ChangeTextEditorMode "insert"; ExecuteCommand insertText "x";
   ExecuteCommand flaky "f"; ChangeTextEditorMode "normal"].

Definition macro : Recording :=
  mkRecording [ExecuteCommand seek "a"; ExecuteCommand insertText "x"].

Definition flakyMacro : Recording :=
  mkRecording [ExecuteCommand flaky "f"].

Definition withMacro (recording : Recording) (ctx : Context) : Context :=
  withRegisters (<["q" := recording]> (registers ctx)) ctx.

(** A context in which register [q] holds a recording and is recording
    again, in session 7. *)
Definition recordingContext : Context :=
  mkContext ([], false)
            (mkRecorder [] {[ 7 := [ExecuteCommand seek "a"] ]} 1000)
            false
            {[ "q" := macro ]}
            {[ "q" := 7 ]}.

(** A context in which the registers [q] and [r] are both recording. *)
Definition twoRecordings : Context :=
  fst (recording_start (fst (recording_start (context [] false) "q")) "r").

End Demo.


(** ** A concrete engine and registry, used to run the dynamic code *)

Module DemoApi.

(** A compiled function is kept as its parameter names and its body; a
    body that holds the words [syntax error] does not compile; every
    reading of the clock is a second later than the one before. *)
#[export] Instance engine : Engine := {|
  Value := string;
  CompiledFunction := list string * string;
  newAsyncFunction := fun names body =>
    if isDefined (index 0 "syntax error" body)
    then inl "SyntaxError: unexpected identifier"
    else inr (names, body);
  moduleExports := [("command", "<command>"); ("run", "<run>")];
  vscodeModule := "<vscode>";
  clock := fun reading => (1000 * Z.of_nat reading)%Z;
|}.

#[export] Instance textUtilities : Strings := {|
  isBlank := fun s => forallb (Ascii.eqb " ") (list_ascii_of_string s);
  parseRegExpWithReplacement := fun _ => None;
|}.

(** A registry with two Dance commands, of which [dance.prompt] requires
    an input; [answers] tells whether the user gives it.  The editor state
    is a journal of what was asked and run. *)
Definition registryWith (answers : bool) : Registry := {|
  EditorState := list string;
  RegisteredCommand := string;
  InputValue := string;
  commandsByName := fun commandName =>
    if (String.eqb commandName "dance.seek"
        || String.eqb commandName "dance.prompt")%bool
    then Some commandName
    else None;
  requiresInput := fun descriptor => String.eqb descriptor "dance.prompt";
  getInput := fun descriptor _ journal =>
    (journal ++ ["input of " +:+ descriptor],
     inr (if (String.eqb descriptor "dance.prompt" && answers)%bool
          then Some "typed"
          else None));
  executeCommand := fun commandName _ journal =>
    (journal ++ ["editor runs " +:+ commandName], inr (AnyString commandName));
  executeMany := fun states journal =>
    (journal ++ ["dance runs a batch"], None);
  JSON_stringify := fun s => doubleQuote +:+ s +:+ doubleQuote;
|}.

(** The wrapping of a code in a block, as [compileFunction] does it. *)
Definition block (code : string) : string :=
  "{" +:+ lineFeed +:+ code +:+ lineFeed +:+ "}".

(** The state after [1 + 1] has been compiled with the parameter [x]. *)
Definition compiledOnce : RunState :=
  fst (compileFunction initialRunState "1 + 1" ["x"]).

(** Four commands: a Dance command by its short name, two commands of the
    editor, and the Dance command that requires an input. *)
Definition fourCommands : list Any :=
  [AnyString ".seek";
   AnyArray [AnyString "workbench.action.files.save"];
   AnyObject [("command", AnyString "editor.action.indentLines")];
   AnyString ".prompt"].

(** Values, functions and a context object of the engine above. *)
Definition values (l : list string) : list (@Value engine) := l.

Definition compiled (names : list string) (body : string) : @CompiledFunction engine :=
  (names, body).

Definition someContext : list (string * @Value engine) := [("k", "v")].

(** The state of a Dance command of the registry above. *)
Definition stateOf (descriptor : string) (input : option string) (arguments : Any)
    : @CommandState (registryWith true) :=
  (descriptor, input, arguments).

(** The batches built from [fourCommands] when the input is given. *)
Definition fourBatches : list (@Batch (registryWith true)) :=
  [DanceBatch [stateOf "dance.seek" None AnyUndefined];
   ExternalCommand "workbench.action.files.save" (AnyArray []);
   ExternalCommand "editor.action.indentLines" AnyUndefined;
   DanceBatch [stateOf "dance.prompt" (Some "typed") AnyUndefined]].

End DemoApi.

(** * Properties *)

Section Properties.

Context `{Host}.

Implicit Types (ctx : Context) (entry : Entry) (sequence : list Entry).

(** ** Frame: replays touch the live state only *)

Lemma withEditor_editor ctx : withEditor (editor ctx) ctx = ctx.
Proof. by destruct ctx. Qed.

Lemma framed_refl ctx : framed ctx ctx.
Proof. unfold framed. by rewrite withEditor_editor. Qed.

Lemma framed_trans ctx1 ctx2 ctx3 :
  framed ctx1 ctx2 -> framed ctx2 ctx3 -> framed ctx1 ctx3.
Proof.
  unfold framed. intros H12 H23. rewrite H23 at 1. rewrite H12 at 1.
  by destruct ctx1.
Qed.

Lemma framed_recorder ctx ctx' : framed ctx ctx' -> recorder ctx' = recorder ctx.
Proof. unfold framed. intros ->. by destruct ctx. Qed.

Lemma framed_flag ctx ctx' :
  framed ctx ctx' -> doNotRecordFlag ctx' = doNotRecordFlag ctx.
Proof. unfold framed. intros ->. by destruct ctx. Qed.

Lemma onEditor_eq step ctx :
  onEditor step ctx
  = (withEditor (fst (step (editor ctx))) ctx, snd (step (editor ctx))).
Proof. unfold onEditor. by destruct (step (editor ctx)). Qed.

Lemma onEditor_framed step ctx : framed ctx (fst (onEditor step ctx)).
Proof. rewrite onEditor_eq. unfold framed. by destruct ctx. Qed.

Lemma Entry_replay_framed entry ctx : framed ctx (fst (Entry_replay entry ctx)).
Proof. destruct entry; apply onEditor_framed. Qed.

Lemma replay_entries_framed sequence :
  forall ctx, framed ctx (fst (replay_entries sequence ctx)).
Proof.
  induction sequence as [|entry rest IH]; intros ctx; simpl.
  - apply framed_refl.
  - pose proof (Entry_replay_framed entry ctx) as Hstep.
    destruct (Entry_replay entry ctx) as [ctx' [| e |]]; simpl in *; try done.
    eapply framed_trans; [exact Hstep | apply IH].
Qed.


(** ** Sequences of replays *)

Lemma replay_entries_app sequence1 sequence2 :
  forall ctx,
    replay_entries (sequence1 ++ sequence2) ctx
    = match replay_entries sequence1 ctx with
      | (ctx', Normal) => replay_entries sequence2 ctx'
      | (ctx', completion) => (ctx', completion)
      end.
Proof.
  induction sequence1 as [|entry rest IH]; intros ctx; simpl; [done|].
  destruct (Entry_replay entry ctx) as [ctx' [| e |]]; auto.
Qed.

(** A sequence fails with the exception of its first failing entry, in the
    state that entry left. *)
Lemma replay_entries_throw before entry after ctx ctx1 ctx' e :
  replay_entries before ctx = (ctx1, Normal) ->
  Entry_replay entry ctx1 = (ctx', Throw e) ->
  replay_entries (before ++ entry :: after) ctx = (ctx', Throw e).
Proof.
  intros Hbefore Hentry. rewrite replay_entries_app, Hbefore. simpl.
  by rewrite Hentry.
Qed.

Lemma forRepetitions_concat sequence :
  forall repetitions ctx,
    forRepetitions repetitions (replay_entries sequence) ctx
    = replay_entries (concat (replicate repetitions sequence)) ctx.
Proof.
  induction repetitions as [|n IH]; intros ctx; simpl; [done|].
  rewrite replay_entries_app.
  destruct (replay_entries sequence ctx) as [ctx' [| e |]]; auto.
Qed.

(** Two bodies that agree on the contexts of a frame give the same loop. *)
Lemma forRepetitions_ext (body1 body2 : Context -> Context * Completion) ctx0 :
  (forall ctx, framed ctx0 ctx -> body1 ctx = body2 ctx) ->
  (forall ctx, framed ctx (fst (body2 ctx))) ->
  forall repetitions ctx,
    framed ctx0 ctx ->
    forRepetitions repetitions body1 ctx = forRepetitions repetitions body2 ctx.
Proof.
  intros Hagree Hframe. induction repetitions as [|n IH]; intros ctx Hctx; simpl; [done|].
  rewrite (Hagree ctx Hctx).
  pose proof (Hframe ctx) as Hstep.
  destruct (body2 ctx) as [ctx' [| e |]]; simpl in *; try done.
  apply IH. by eapply framed_trans.
Qed.

(** A failing iteration ends the loop: its exception is the completion of
    the loop and the state is the one the failing iteration left. *)
Lemma forRepetitions_abort (body : Context -> Context * Completion) e :
  forall i repetitions ctx ctx_i ctx',
    i < repetitions ->
    forRepetitions i body ctx = (ctx_i, Normal) ->
    body ctx_i = (ctx', Throw e) ->
    forRepetitions repetitions body ctx = (ctx', Throw e).
Proof.
  induction i as [|i IH]; intros [|n] ctx ctx_i ctx' Hlt Hrun Hfail; try lia.
  - simpl in *. injection Hrun as <-. by rewrite Hfail.
  - simpl in *. destruct (body ctx) as [ctx1 [| e1 |]]; try done.
    eapply IH; eauto. lia.
Qed.

(** The loop of [repeat] as an iteration of the replay on the live state. *)
Lemma forRepetitions_iter (descriptor : CommandDescriptor) (argument : Argument) ctx :
  forall repetitions world,
    (forall k, k < repetitions ->
       snd (replay descriptor argument
              (Nat.iter k (fun w => fst (replay descriptor argument w)) world))
       = Normal) ->
    forRepetitions repetitions
      (fun ctx => CommandDescriptor_replay descriptor ctx argument)
      (withEditor world ctx)
    = (withEditor
         (Nat.iter repetitions (fun w => fst (replay descriptor argument w)) world)
         ctx,
       Normal).
Proof.
  induction repetitions as [|n IH]; intros world Hok; [done|].
  cbn [forRepetitions]. unfold CommandDescriptor_replay at 1.
  rewrite onEditor_eq. cbn [editor withEditor].
  pose proof (Hok 0 ltac:(lia)) as Hfirst. simpl in Hfirst.
  rewrite Hfirst.
  replace (withEditor (fst (replay descriptor argument world)) (withEditor world ctx))
    with (withEditor (fst (replay descriptor argument world)) ctx)
    by (by destruct ctx).
  rewrite IH.
  - by rewrite Nat.iter_succ_r.
  - intros k Hk. specialize (Hok (S k)). rewrite Nat.iter_succ_r in Hok.
    apply Hok. lia.
Qed.

(** ** The backward search of repeat *)

Lemma repeat_search_step fuel (rec : Recorder) (filter : RegExp) (cursor : Cursor) :
  repeat_search (S fuel) rec filter cursor
  = let continue :=
      match position cursor with
      | 0 => Exhausted
      | S p => repeat_search fuel rec filter (mkCursor p)
      end in
    match log rec !! position cursor with
    | Some (ExecuteCommand descriptor argument) =>
        if eligible filter descriptor then Found (descriptor, argument) else continue
    | _ => continue
    end.
Proof.
  cbn [repeat_search]. unfold Cursor_is, Cursor_entry, Cursor_previous.
  destruct (log rec !! position cursor) as [[descriptor argument | modeName]|];
    destruct (position cursor); cbn; try done.
Qed.

Lemma repeat_search_found (rec : Recorder) (filter : RegExp) index descriptor argument :
  log rec !! index = Some (ExecuteCommand descriptor argument) ->
  eligible filter descriptor = true ->
  forall pos fuel,
    pos < fuel -> index <= pos ->
    (forall i entry, index < i <= pos -> log rec !! i = Some entry ->
                     entry_eligible filter entry = false) ->
    repeat_search fuel rec filter (mkCursor pos) = Found (descriptor, argument).
Proof.
  intros Hat Heligible. induction pos as [|pos IH]; intros [|fuel] Hfuel Hindex Hlater;
    try lia; rewrite repeat_search_step; cbn [position].
  - assert (index = 0) as -> by lia. by rewrite Hat, Heligible.
  - destruct (decide (index = S pos)) as [->|Hne].
    + by rewrite Hat, Heligible.
    + assert (repeat_search fuel rec filter (mkCursor pos) = Found (descriptor, argument))
        as Hrest.
      { apply IH; [lia | lia |]. intros i entry Hi. apply Hlater. lia. }
      cbn zeta. rewrite Hrest.
      destruct (log rec !! S pos) as [[d a | modeName]|] eqn:Hentry; try done.
      specialize (Hlater (S pos) _ ltac:(lia) Hentry). cbn in Hlater.
      by rewrite Hlater.
Qed.

Lemma repeat_search_exhausted (rec : Recorder) (filter : RegExp) :
  forall pos fuel,
    pos < fuel ->
    (forall i entry, i <= pos -> log rec !! i = Some entry ->
                     entry_eligible filter entry = false) ->
    repeat_search fuel rec filter (mkCursor pos) = Exhausted.
Proof.
  induction pos as [|pos IH]; intros [|fuel] Hfuel Hnone;
    try lia; rewrite repeat_search_step; cbn [position]; cbn zeta.
  - destruct (log rec !! 0) as [[d a | modeName]|] eqn:Hentry; try done.
    specialize (Hnone 0 _ ltac:(lia) Hentry). cbn in Hnone. by rewrite Hnone.
  - rewrite IH; [| lia | intros i entry Hi; apply Hnone; lia].
    destruct (log rec !! S pos) as [[d a | modeName]|] eqn:Hentry; try done.
    specialize (Hnone (S pos) _ ltac:(lia) Hentry). cbn in Hnone. by rewrite Hnone.
Qed.

(** The search from the log end stops at the last eligible entry. *)
Lemma repeat_search_most_recent (rec : Recorder) (filter : RegExp)
    before descriptor argument after :
  log rec = before ++ ExecuteCommand descriptor argument :: after ->
  eligible filter descriptor = true ->
  Forall (fun entry => entry_eligible filter entry = false) after ->
  repeat_search (iterations rec) rec filter (cursorFromEnd rec)
  = Found (descriptor, argument).
Proof.
  intros Hlog Heligible Hafter. unfold iterations, cursorFromEnd.
  apply (repeat_search_found rec filter (length before)); try done.
  - rewrite Hlog. by rewrite list_lookup_middle.
  - lia.
  - rewrite Hlog, length_app. simpl. lia.
  - intros i entry Hi Hentry. rewrite Hlog in Hentry.
    rewrite lookup_app_r in Hentry by lia.
    destruct (i - length before) as [|j] eqn:Hj; [lia|]. simpl in Hentry.
    rewrite Forall_lookup in Hafter. by eapply Hafter.
Qed.

Lemma repeat_search_none (rec : Recorder) (filter : RegExp) :
  Forall (fun entry => entry_eligible filter entry = false) (log rec) ->
  repeat_search (iterations rec) rec filter (cursorFromEnd rec) = Exhausted.
Proof.
  intros Hnone. unfold iterations, cursorFromEnd.
  apply repeat_search_exhausted; [lia|].
  intros i entry _ Hentry. rewrite Forall_lookup in Hnone. by eapply Hnone.
Qed.

(** A list with an element satisfying a test splits at the last such
    element. *)
Lemma split_at_last {A : Type} (p : A -> bool) (l : list A) :
  Exists (fun x => p x = true) l ->
  exists before x after,
    l = before ++ x :: after /\ p x = true
    /\ Forall (fun y => p y = false) after.
Proof.
  induction l as [|x l IH]; intros Hex; [by apply Exists_nil in Hex|].
  destruct (decide (Exists (fun y => p y = true) l)) as [Hlater|Hnot].
  - destruct (IH Hlater) as (before & y & after & -> & Hy & Hafter).
    by exists (x :: before), y, after.
  - apply Exists_cons in Hex as [Hx|Hl]; [|done].
    exists [], x, l. split_and!; try done.
    apply Forall_forall. intros y Hy. destruct (p y) eqn:Hpy; [|done].
    exfalso. apply Hnot. apply Exists_exists. eauto.
Qed.

(** ** The search for the edit span *)

Lemma edit_search_step fuel (rec : Recorder) pos (endCursor : option Cursor) :
  edit_search (S fuel) rec (mkCursor pos) endCursor
  = let continue pos endCursor :=
      match pos with
      | 0 => Exhausted
      | S p => edit_search fuel rec (mkCursor p) endCursor
      end in
    match log rec !! pos with
    | Some (ChangeTextEditorMode modeName) =>
        if String.eqb modeName "normal"
        then continue (pred pos) (Some (mkCursor (pred pos)))
        else
          match String.eqb modeName "insert", endCursor with
          | true, Some endCursor => Found (mkCursor (S pos), endCursor)
          | _, _ => continue pos endCursor
          end
    | _ => continue pos endCursor
    end.
Proof.
  cbn [edit_search]. unfold Cursor_is, Cursor_entry, Cursor_previous, Cursor_next.
  cbn [position].
  destruct (log rec !! pos) as [[descriptor argument | modeName]|] eqn:Hentry;
    cbn [kindOf EntryKind_eqb].
  - by destruct pos.
  - destruct (String.eqb modeName "normal").
    + by destruct pos as [|[|p]].
    + destruct (String.eqb modeName "insert"), endCursor as [e|];
        try by destruct pos.
      apply lookup_lt_Some in Hentry.
      destruct (decide (length (log rec) <= pos)); [lia | done].
  - by destruct pos.
Qed.

(** The search never runs out of iterations. *)
Lemma edit_search_terminates (rec : Recorder) :
  forall fuel pos endCursor,
    pos < fuel -> edit_search fuel rec (mkCursor pos) endCursor <> OutOfFuel.
Proof.
  induction fuel as [|fuel IH]; intros pos endCursor Hfuel; [lia|].
  rewrite edit_search_step. cbn zeta.
  assert (forall q endCursor', q <= pos ->
            match q with
            | 0 => Exhausted
            | S p => edit_search fuel rec (mkCursor p) endCursor'
            end <> (OutOfFuel : Search (Cursor * Cursor))) as Hcontinue.
  { intros [|p] endCursor' Hq; [done|]. apply IH. lia. }
  destruct (log rec !! pos) as [[descriptor argument | modeName]|];
    try (apply Hcontinue; lia).
  destruct (String.eqb modeName "normal"); [apply Hcontinue; lia|].
  destruct (String.eqb modeName "insert"), endCursor as [e|];
    try (apply Hcontinue; lia).
  done.
Qed.

(** A span that is found is bracketed: the entry before its start is a
    change to insert mode, the entry after its end is a change to normal
    mode, and the start is not after the end. *)
Lemma edit_search_sound (rec : Recorder) :
  forall fuel pos endCursor startCursor endCursor',
    edit_search fuel rec (mkCursor pos) endCursor = Found (startCursor, endCursor') ->
    (forall e, endCursor = Some e ->
               pos < position e /\ changesModeAt rec (S (position e)) "normal") ->
    1 <= position startCursor
    /\ changesModeAt rec (position startCursor - 1) "insert"
    /\ position startCursor <= position endCursor'
    /\ changesModeAt rec (S (position endCursor')) "normal".
Proof.
  induction fuel as [|fuel IH]; intros pos endCursor s e' Hfound Hinv; [done|].
  rewrite edit_search_step in Hfound. cbn zeta in Hfound.
  assert (forall p, pos = S p ->
            edit_search fuel rec (mkCursor p) endCursor = Found (s, e') ->
            1 <= position s /\ changesModeAt rec (position s - 1) "insert"
            /\ position s <= position e'
            /\ changesModeAt rec (S (position e')) "normal") as Hcontinue.
  { intros p -> Hrest. eapply IH; [exact Hrest|].
    intros e He. destruct (Hinv e He). split; [lia | done]. }
  destruct (log rec !! pos) as [[descriptor argument | modeName]|] eqn:Hentry.
  - destruct pos; [done | eauto].
  - destruct (String.eqb modeName "normal") eqn:Hnormal.
    + apply String.eqb_eq in Hnormal as ->.
      destruct pos as [|[|p]]; try done. cbn [pred] in Hfound.
      eapply IH; [exact Hfound|].
      intros e [= <-]. cbn [position]. split; [lia | done].
    + destruct (String.eqb modeName "insert") eqn:Hinsert, endCursor as [e|];
        try (destruct pos; [done | eauto]).
      apply String.eqb_eq in Hinsert as ->.
      injection Hfound as <- <-. cbn [position].
      destruct (Hinv e eq_refl) as [Hlt Hend].
      replace (S pos - 1) with pos by lia. split_and!; [lia | done | lia | done].
  - destruct pos; [done | eauto].
Qed.

(** Entries that stop nothing are skipped. *)
Lemma edit_search_skip (rec : Recorder) (endCursor : option Cursor) target result :
  (forall fuel, target < fuel ->
     edit_search fuel rec (mkCursor target) endCursor = result) ->
  forall pos fuel,
    pos < fuel -> target <= pos ->
    (forall i entry, target < i <= pos -> log rec !! i = Some entry ->
       notChangeTo "normal" entry
       /\ (isDefined endCursor = true -> notChangeTo "insert" entry)) ->
    edit_search fuel rec (mkCursor pos) endCursor = result.
Proof.
  intros Htarget. induction pos as [|pos IH]; intros fuel Hfuel Hle Hskip.
  - assert (target = 0) as -> by lia. by apply Htarget.
  - destruct (decide (target = S pos)) as [->|Hne]; [by apply Htarget|].
    destruct fuel as [|fuel]; [lia|].
    assert (edit_search fuel rec (mkCursor pos) endCursor = result) as Hrest.
    { apply IH; [lia | lia |]. intros i entry Hi. apply Hskip. lia. }
    rewrite edit_search_step. cbn zeta.
    destruct (log rec !! S pos) as [[descriptor argument | modeName]|] eqn:Hentry;
      try done.
    destruct (Hskip (S pos) _ ltac:(lia) Hentry) as [Hnormal Hinsert].
    destruct (String.eqb modeName "normal") eqn:Hn.
    { apply String.eqb_eq in Hn as ->. by destruct Hnormal. }
    destruct (String.eqb modeName "insert") eqn:Hi, endCursor as [e|]; try done.
    apply String.eqb_eq in Hi as ->. by destruct Hinsert.
Qed.

(** Without a change to normal mode no end is captured, and the search
    fails. *)
Lemma edit_search_no_normal (rec : Recorder) :
  forall pos fuel,
    pos < fuel ->
    (forall i entry, i <= pos -> log rec !! i = Some entry ->
                     notChangeTo "normal" entry) ->
    edit_search fuel rec (mkCursor pos) None = Exhausted.
Proof.
  induction pos as [|pos IH]; intros [|fuel] Hfuel Hnone; try lia;
    rewrite edit_search_step; cbn zeta.
  - destruct (log rec !! 0) as [[descriptor argument | modeName]|] eqn:Hentry;
      try done.
    destruct (String.eqb modeName "normal") eqn:Hn.
    { apply String.eqb_eq in Hn as ->. by destruct (Hnone 0 _ ltac:(lia) Hentry). }
    by destruct (String.eqb modeName "insert").
  - assert (edit_search fuel rec (mkCursor pos) None = Exhausted) as Hrest.
    { apply IH; [lia|]. intros i entry Hi. apply Hnone. lia. }
    destruct (log rec !! S pos) as [[descriptor argument | modeName]|] eqn:Hentry;
      try done.
    destruct (String.eqb modeName "normal") eqn:Hn.
    { apply String.eqb_eq in Hn as ->.
      by destruct (Hnone (S pos) _ ltac:(lia) Hentry). }
    by destruct (String.eqb modeName "insert").
Qed.

(** Without a change to insert mode no start is found, and the search
    fails. *)
Lemma edit_search_no_insert (rec : Recorder) :
  forall fuel pos endCursor,
    pos < fuel ->
    (forall i entry, i <= pos -> log rec !! i = Some entry ->
                     notChangeTo "insert" entry) ->
    edit_search fuel rec (mkCursor pos) endCursor = Exhausted.
Proof.
  induction fuel as [|fuel IH]; intros pos endCursor Hfuel Hnone; [lia|].
  rewrite edit_search_step. cbn zeta.
  assert (forall q endCursor', q <= pos ->
            match q with
            | 0 => Exhausted
            | S p => edit_search fuel rec (mkCursor p) endCursor'
            end = Exhausted) as Hcontinue.
  { intros [|p] endCursor' Hq; [done|]. apply IH; [lia|].
    intros i entry Hi. apply Hnone. lia. }
  destruct (log rec !! pos) as [[descriptor argument | modeName]|] eqn:Hentry;
    try (apply Hcontinue; lia).
  destruct (String.eqb modeName "normal"); [apply Hcontinue; lia|].
  destruct (String.eqb modeName "insert") eqn:Hi, endCursor as [e|];
    try (apply Hcontinue; lia).
  apply String.eqb_eq in Hi as ->. by destruct (Hnone pos _ ltac:(lia) Hentry).
Qed.

(** The search stops at the most recent change to insert mode that is
    followed by a change to normal mode, and the span it returns is what
    lies between the two. *)
Lemma edit_search_most_recent (rec : Recorder) before body last after :
  log rec = before ++ ChangeTextEditorMode "insert" :: body
              ++ last :: ChangeTextEditorMode "normal" :: after ->
  Forall (notChangeTo "normal") after ->
  Forall (fun entry => notChangeTo "normal" entry /\ notChangeTo "insert" entry) body ->
  edit_search (iterations rec) rec (cursorFromEnd rec) None
  = Found (mkCursor (S (length before)), mkCursor (S (length before + length body))).
Proof.
  intros Hlog Hafter Hbody. unfold iterations, cursorFromEnd.
  set (q := length before). set (p := S (S (q + length body))).
  assert (log rec !! q = Some (ChangeTextEditorMode "insert")) as Hq.
  { rewrite Hlog. by apply list_lookup_middle. }
  assert (log rec !! p = Some (ChangeTextEditorMode "normal")) as Hp.
  { rewrite Hlog. rewrite lookup_app_r by (unfold p, q; lia).
    rewrite lookup_cons_ne_0 by (unfold p, q; lia).
    rewrite lookup_app_r by (unfold p, q; lia).
    replace (Init.Nat.pred (p - length before) - length body) with 1
      by (unfold p, q; lia).
    done. }
  assert (length (log rec) = S p + length after) as Hlength.
  { rewrite Hlog. rewrite !length_app. simpl. rewrite length_app. simpl.
    unfold p, q. lia. }
  apply (edit_search_skip rec None p); [| lia | lia |].
  - intros [|fuel] Hfuel; [lia|]. rewrite edit_search_step. cbn zeta.
    rewrite Hp. cbn [String.eqb Ascii.eqb Bool.eqb andb]. unfold p at 1 2. cbn [pred].
    apply (edit_search_skip rec _ q); [| unfold p in *; lia | lia |].
    + intros [|fuel'] Hfuel'; [lia|]. rewrite edit_search_step. cbn zeta.
      rewrite Hq. done.
    + intros i entry Hi Hentry. rewrite Hlog in Hentry.
      rewrite lookup_app_r in Hentry by (unfold q in *; lia).
      rewrite lookup_cons_ne_0 in Hentry by (unfold q in *; lia).
      rewrite lookup_app_l in Hentry by (unfold q in *; lia).
      rewrite Forall_lookup in Hbody. destruct (Hbody _ _ Hentry). by split.
  - intros i entry Hi Hentry. split; [|done]. rewrite Hlog in Hentry.
    rewrite lookup_app_r in Hentry by (unfold p, q in *; lia).
    rewrite lookup_cons_ne_0 in Hentry by (unfold p, q in *; lia).
    rewrite lookup_app_r in Hentry by (unfold p, q in *; lia).
    destruct (Init.Nat.pred (i - length before) - length body)
      as [|[|j]] eqn:Hj; [unfold p, q in *; lia | unfold p, q in *; lia |].
    simpl in Hentry. rewrite Forall_lookup in Hafter. by eapply Hafter.
Qed.

(** ** The walk over a span *)

Lemma replay_span_entries :
  forall count start fuel ctx finish,
    S finish - start = count -> count < fuel ->
    finish < length (log (recorder ctx)) ->
    replay_span fuel (mkCursor start) (mkCursor finish) ctx
    = replay_entries (take count (drop start (log (recorder ctx)))) ctx.
Proof.
  induction count as [|count IH]; intros start [|fuel] ctx finish Hcount Hfuel Hbound;
    try lia; cbn [replay_span]; unfold Cursor_isBeforeOrEqual; cbn [position].
  - rewrite bool_decide_eq_false_2 by lia. done.
  - rewrite bool_decide_eq_true_2 by lia.
    destruct (lookup_lt_is_Some_2 (log (recorder ctx)) start ltac:(lia)) as [entry Hentry].
    unfold Cursor_replay, Cursor_entry. cbn [position]. rewrite Hentry.
    rewrite (drop_S _ _ _ Hentry). cbn [take replay_entries].
    pose proof (Entry_replay_framed entry ctx) as Hframe.
    destruct (Entry_replay entry ctx) as [ctx' [| e |]]; cbn [fst] in Hframe; try done.
    apply framed_recorder in Hframe. unfold Cursor_next. cbn [position].
    rewrite Hframe.
    destruct (decide (length (log (recorder ctx)) <= start)); [lia|]. cbn [fst].
    rewrite <- Hframe. apply IH; [lia | lia | rewrite Hframe; lia].
Qed.

(** The loop of [repeat_edit] replays the span as many times as asked. *)
Lemma repeat_edit_loop (startCursor endCursor : Cursor) ctx0 :
  position endCursor < length (log (recorder ctx0)) ->
  forall repetitions ctx,
    framed ctx0 ctx ->
    forRepetitions repetitions
      (fun ctx => replay_span (iterations (recorder ctx))
                              (Cursor_clone startCursor) endCursor ctx)
      ctx
    = replay_entries
        (concat (replicate repetitions (span (recorder ctx0) startCursor endCursor)))
        ctx.
Proof.
  intros Hbound repetitions ctx Hctx.
  rewrite <- forRepetitions_concat.
  apply (forRepetitions_ext _ _ ctx0); [| | done].
  - intros ctx1 Hframe. apply framed_recorder in Hframe.
    destruct endCursor as [finish]. unfold Cursor_clone, span, iterations.
    cbn [position] in *. rewrite <- Hframe.
    apply replay_span_entries; [done | | rewrite Hframe; lia].
    rewrite Hframe. lia.
  - intros ctx1. apply replay_entries_framed.
Qed.

Lemma doNotRecord_recorder ctx : recorder (doNotRecord ctx) = recorder ctx.
Proof. done. Qed.

(** ** repeat *)

Lemma repeat_found ctx repetitions filter regexp descriptor argument :
  resolveFilter filter = inr regexp ->
  repeat_search (iterations (recorder ctx)) (recorder ctx) regexp
                (cursorFromEnd (recorder ctx)) = Found (descriptor, argument) ->
  repeat ctx repetitions filter
  = forRepetitions repetitions
      (fun ctx => CommandDescriptor_replay descriptor ctx argument) ctx.
Proof. intros Hfilter Hsearch. unfold repeat. by rewrite Hfilter, Hsearch. Qed.

Lemma repeat_not_found ctx repetitions filter regexp :
  resolveFilter filter = inr regexp ->
  Forall (fun entry => entry_eligible regexp entry = false) (log (recorder ctx)) ->
  repeat ctx repetitions filter
  = (ctx, Throw (Error ("no previous command matching " +:+ toString regexp))).
Proof.
  intros Hfilter Hnone. unfold repeat.
  by rewrite Hfilter, (repeat_search_none _ _ Hnone).
Qed.

Lemma repeat_all_normal ctx repetitions filter regexp descriptor argument :
  resolveFilter filter = inr regexp ->
  repeat_search (iterations (recorder ctx)) (recorder ctx) regexp
                (cursorFromEnd (recorder ctx)) = Found (descriptor, argument) ->
  (forall k, k < repetitions ->
     snd (replay descriptor argument
            (Nat.iter k (fun w => fst (replay descriptor argument w)) (editor ctx)))
     = Normal) ->
  repeat ctx repetitions filter
  = (withEditor
       (Nat.iter repetitions (fun w => fst (replay descriptor argument w)) (editor ctx))
       ctx,
     Normal).
Proof.
  intros Hfilter Hsearch Hok. rewrite (repeat_found _ _ _ _ _ _ Hfilter Hsearch).
  rewrite <- (withEditor_editor ctx) at 1. by apply forRepetitions_iter.
Qed.


(** C9.  With no repetition asked for, [repeat] still searches the log and
    [recording_play] still validates the register: the search-exhausted
    error and the argument error are thrown as for any other count, and
    when the search or the validation succeeds the command completes
    normally and leaves the context as it was, no replay being invoked. *)
Theorem zero_repetitions_still_validate ctx :
  (forall filter regexp,
     resolveFilter filter = inr regexp ->
     (Forall (fun entry => entry_eligible regexp entry = false) (log (recorder ctx)) ->
      repeat ctx 0 filter
      = (ctx, Throw (Error ("no previous command matching " +:+ toString regexp))))
     /\ (Exists (fun entry => entry_eligible regexp entry = true) (log (recorder ctx)) ->
         repeat ctx 0 filter = (ctx, Normal)))
  /\ (forall register,
        match registers ctx !! register with
        | None =>
            recording_play ctx 0 register
            = (ctx, Throw (ArgumentError (noRecordingMessage register) "recording"))
        | Some _ => recording_play ctx 0 register = (ctx, Normal)
        end).
Proof.
  split.
  - intros filter regexp Hfilter. split; [by apply repeat_not_found|].
    intros Hsome.
    destruct (split_at_last _ _ Hsome) as (before & entry & after & Hlog & Hentry & Hafter).
    destruct entry as [descriptor argument | modeName]; [|done].
    erewrite repeat_found; [done | done |].
    by eapply repeat_search_most_recent.
  - intros register. unfold recording_play.
    by destruct (registers ctx !! register).
Qed.

(** ** repeat_edit *)

Lemma repeat_edit_found ctx repetitions startCursor endCursor :
  edit_search (iterations (recorder ctx)) (recorder ctx)
              (cursorFromEnd (recorder ctx)) None = Found (startCursor, endCursor) ->
  repeat_edit ctx repetitions
  = replay_entries
      (concat (replicate repetitions (span (recorder ctx) startCursor endCursor)))
      (doNotRecord ctx).
Proof.
  intros Hsearch. unfold repeat_edit. rewrite doNotRecord_recorder, Hsearch.
  assert (position endCursor < length (log (recorder ctx))) as Hbound.
  { destruct (edit_search_sound _ _ _ _ _ _ Hsearch) as (_ & _ & _ & Hnormal);
      [done|].
    apply lookup_lt_Some in Hnormal. lia. }
  apply (repeat_edit_loop startCursor endCursor (doNotRecord ctx) Hbound).
  apply framed_refl.
Qed.

Lemma repeat_edit_not_found ctx repetitions :
  edit_search (iterations (recorder ctx)) (recorder ctx)
              (cursorFromEnd (recorder ctx)) None = Exhausted ->
  repeat_edit ctx repetitions
  = (doNotRecord ctx, Throw (Error "cannot find switch to normal or insert mode")).
Proof. intros Hsearch. unfold repeat_edit. by rewrite doNotRecord_recorder, Hsearch. Qed.

(** C2, as amended.  [repeat_edit] scans backward from the log end, and the
    scan always ends.  A span it locates ends at the position immediately
    before a change to normal mode (the cursor is stepped back once before
    it is captured) and starts at the position immediately after a change
    to insert mode found further back, so the start is not after the end.
    When the log ends with a change to insert mode, entries that change to
    neither mode, one more entry, a change to normal mode and entries that
    do not change to normal mode, the span is what lies between the two
    changes.  When the scan reaches the log start without such a pair, as
    it does in a log without a change to normal mode or without a change
    to insert mode, [repeat_edit] throws its error. *)
Theorem repeat_edit_locates_span ctx repetitions :
  let located :=
    edit_search (iterations (recorder ctx)) (recorder ctx)
                (cursorFromEnd (recorder ctx)) None in
  located <> OutOfFuel
  /\ (forall startCursor endCursor,
        located = Found (startCursor, endCursor) ->
        changesModeAt (recorder ctx) (S (position endCursor)) "normal"
        /\ 1 <= position startCursor
        /\ changesModeAt (recorder ctx) (position startCursor - 1) "insert"
        /\ position startCursor <= position endCursor)
  /\ (forall before body last after,
        log (recorder ctx)
        = before ++ ChangeTextEditorMode "insert" :: body
            ++ last :: ChangeTextEditorMode "normal" :: after ->
        Forall (notChangeTo "normal") after ->
        Forall (fun entry => notChangeTo "normal" entry /\ notChangeTo "insert" entry)
               body ->
        located = Found (mkCursor (S (length before)),
                         mkCursor (S (length before + length body)))
        /\ span (recorder ctx) (mkCursor (S (length before)))
                (mkCursor (S (length before + length body)))
           = body ++ [last])
  /\ (located = Exhausted ->
      repeat_edit ctx repetitions
      = (doNotRecord ctx,
         Throw (Error "cannot find switch to normal or insert mode")))
  /\ (Forall (notChangeTo "normal") (log (recorder ctx))
      \/ Forall (notChangeTo "insert") (log (recorder ctx)) ->
      located = Exhausted).
Proof.
  cbn zeta. split_and!.
  - apply edit_search_terminates. unfold iterations, cursorFromEnd. lia.
  - intros startCursor endCursor Hfound.
    destruct (edit_search_sound _ _ _ _ _ _ Hfound) as (? & ? & ? & ?); done.
  - intros before body last after Hlog Hafter Hbody. split.
    + by eapply edit_search_most_recent.
    + unfold span. cbn [position].
      replace (log (recorder ctx))
        with ((before ++ [ChangeTextEditorMode "insert"])
                ++ (body ++ [last]) ++ ChangeTextEditorMode "normal" :: after)
        by (rewrite Hlog, <- !app_assoc; done).
      rewrite drop_app_length' by (rewrite length_app; simpl; lia).
      apply take_app_length'. rewrite length_app. simpl. lia.
  - apply repeat_edit_not_found.
  - unfold iterations, cursorFromEnd. intros [Hnone|Hnone].
    + apply edit_search_no_normal; [lia|]. intros i entry _ Hentry.
      rewrite Forall_lookup in Hnone. by eapply Hnone.
    + apply edit_search_no_insert; [lia|]. intros i entry _ Hentry.
      rewrite Forall_lookup in Hnone. by eapply Hnone.
Qed.

(** C3.  Once [repeat_edit] has located a span, it replays the entries from
    the span start to the span end included, every one of them and in log
    order, and does so [repetitions] times over: the command is the
    replay of the span repeated [repetitions] times in a row.  The span
    holds one entry for every position from its start to its end. *)
Theorem repeat_edit_replays_whole_span ctx repetitions startCursor endCursor :
  edit_search (iterations (recorder ctx)) (recorder ctx)
              (cursorFromEnd (recorder ctx)) None = Found (startCursor, endCursor) ->
  repeat_edit ctx repetitions
  = replay_entries
      (concat (replicate repetitions (span (recorder ctx) startCursor endCursor)))
      (doNotRecord ctx)
  /\ length (span (recorder ctx) startCursor endCursor)
     = S (position endCursor) - position startCursor
  /\ forall offset,
       offset < S (position endCursor) - position startCursor ->
       span (recorder ctx) startCursor endCursor !! offset
       = log (recorder ctx) !! (position startCursor + offset).
Proof.
  intros Hsearch. split; [by apply repeat_edit_found|].
  destruct (edit_search_sound _ _ _ _ _ _ Hsearch) as (_ & _ & Hle & Hnormal);
    [done|].
  apply lookup_lt_Some in Hnormal. unfold span. split.
  - rewrite length_take, length_drop. lia.
  - intros offset Hoffset. rewrite lookup_take_lt by done. by rewrite lookup_drop.
Qed.

(** C10.  Every invocation of [repeat_edit] sets the do-not-record flag of
    its context, whatever the count and whether or not a span is found;
    the context it leaves differs from the flagged one in the live editor
    state at most, so the log is as it was, and the dispatcher, finding
    the flag set, appends no entry for the invocation. *)
Theorem repeat_edit_is_never_recorded ctx repetitions descriptor argument :
  doNotRecordFlag (fst (repeat_edit ctx repetitions)) = true
  /\ framed (doNotRecord ctx) (fst (repeat_edit ctx repetitions))
  /\ recorder (fst (repeat_edit ctx repetitions)) = recorder ctx
  /\ recorder (fst (execute descriptor argument
                      (fun ctx => repeat_edit ctx repetitions) ctx))
     = recorder ctx.
Proof.
  assert (forall ctx, framed (doNotRecord ctx) (fst (repeat_edit ctx repetitions)))
    as Hframe.
  { intros ctx0.
    destruct (edit_search (iterations (recorder ctx0)) (recorder ctx0)
                          (cursorFromEnd (recorder ctx0)) None)
      as [[startCursor endCursor]| |] eqn:Hsearch.
    - rewrite (repeat_edit_found _ _ _ _ Hsearch). apply replay_entries_framed.
    - rewrite (repeat_edit_not_found _ _ Hsearch). apply framed_refl.
    - exfalso. revert Hsearch. apply edit_search_terminates.
      unfold iterations, cursorFromEnd. lia. }
  split_and!.
  - by rewrite (framed_flag _ _ (Hframe ctx)).
  - apply Hframe.
  - by rewrite (framed_recorder _ _ (Hframe ctx)).
  - unfold execute.
    set (fresh := mkContext (editor ctx) (recorder ctx) false
                            (registers ctx) (recordingPerRegister ctx)).
    pose proof (Hframe fresh) as Hfresh.
    destruct (repeat_edit fresh repetitions) as [ctx' completion]. cbn [fst] in *.
    rewrite (framed_flag _ _ Hfresh). cbn.
    by rewrite (framed_recorder _ _ Hfresh).
Qed.

(** ** recording_play *)

Lemma recording_play_held ctx repetitions register recording :
  registers ctx !! register = Some recording ->
  recording_play ctx repetitions register
  = replay_entries (concat (replicate repetitions (entries recording))) ctx.
Proof.
  intros Hheld. unfold recording_play. rewrite Hheld. cbn.
  unfold Recording_replay. apply forRepetitions_concat.
Qed.


(** ** Failures and cancellation in the repetition loops *)

(** C7.  In each of the three repetition loops, when the first [i]
    iterations complete normally and a command re-executed in the next one
    throws, with [i < repetitions], the command completes with that very
    exception, in the state the failing replay left: no later entry and no
    later iteration is replayed. *)
Theorem replay_failure_aborts_repetitions ctx i repetitions e :
  i < repetitions ->
  (forall filter regexp descriptor argument ctx_i world',
     resolveFilter filter = inr regexp ->
     repeat_search (iterations (recorder ctx)) (recorder ctx) regexp
                   (cursorFromEnd (recorder ctx)) = Found (descriptor, argument) ->
     repeat ctx i filter = (ctx_i, Normal) ->
     replay descriptor argument (editor ctx_i) = (world', Throw e) ->
     repeat ctx repetitions filter = (withEditor world' ctx_i, Throw e))
  /\ (forall startCursor endCursor before entry after ctx_i ctx1 ctx',
        edit_search (iterations (recorder ctx)) (recorder ctx)
                    (cursorFromEnd (recorder ctx)) None
        = Found (startCursor, endCursor) ->
        span (recorder ctx) startCursor endCursor = before ++ entry :: after ->
        repeat_edit ctx i = (ctx_i, Normal) ->
        replay_entries before ctx_i = (ctx1, Normal) ->
        Entry_replay entry ctx1 = (ctx', Throw e) ->
        repeat_edit ctx repetitions = (ctx', Throw e))
  /\ (forall register recording before entry after ctx_i ctx1 ctx',
        registers ctx !! register = Some recording ->
        entries recording = before ++ entry :: after ->
        recording_play ctx i register = (ctx_i, Normal) ->
        replay_entries before ctx_i = (ctx1, Normal) ->
        Entry_replay entry ctx1 = (ctx', Throw e) ->
        recording_play ctx repetitions register = (ctx', Throw e)).
Proof.
  intros Hlt. split_and!.
  - intros filter regexp descriptor argument ctx_i world' Hfilter Hsearch Hrun Hfail.
    rewrite (repeat_found _ i _ _ _ _ Hfilter Hsearch) in Hrun.
    rewrite (repeat_found _ repetitions _ _ _ _ Hfilter Hsearch).
    eapply forRepetitions_abort; [exact Hlt | exact Hrun |].
    unfold CommandDescriptor_replay. by rewrite onEditor_eq, Hfail.
  - intros startCursor endCursor before entry after ctx_i ctx1 ctx'
           Hsearch Hspan Hrun Hbefore Hfail.
    rewrite (repeat_edit_found _ i _ _ Hsearch) in Hrun.
    rewrite (repeat_edit_found _ repetitions _ _ Hsearch).
    rewrite <- forRepetitions_concat in Hrun. rewrite <- forRepetitions_concat.
    eapply forRepetitions_abort; [exact Hlt | exact Hrun |].
    rewrite Hspan. by eapply replay_entries_throw.
  - intros register recording before entry after ctx_i ctx1 ctx'
           Hheld Hentries Hrun Hbefore Hfail.
    rewrite (recording_play_held _ i _ _ Hheld) in Hrun.
    rewrite (recording_play_held _ repetitions _ _ Hheld).
    rewrite <- forRepetitions_concat in Hrun. rewrite <- forRepetitions_concat.
    eapply forRepetitions_abort; [exact Hlt | exact Hrun |].
    rewrite Hentries. by eapply replay_entries_throw.
Qed.

(** C8, as amended.  None of the repetition loops looks at the cancellation
    signal: with cancellation requested when the command starts, [repeat]
    still performs all its [repetitions] replays when each completes
    normally, and [repeat_edit] and [recording_play] still are the replay
    of the span, respectively of the recording, repeated [repetitions]
    times, stopping only at a replay that does not complete normally.  What
    was replayed stays in the state the command leaves. *)
Theorem repetition_loops_ignore_cancellation ctx repetitions :
  isCancellationRequested (editor ctx) = true ->
  (forall filter regexp descriptor argument,
     resolveFilter filter = inr regexp ->
     repeat_search (iterations (recorder ctx)) (recorder ctx) regexp
                   (cursorFromEnd (recorder ctx)) = Found (descriptor, argument) ->
     (forall k, k < repetitions ->
        snd (replay descriptor argument
               (Nat.iter k (fun w => fst (replay descriptor argument w)) (editor ctx)))
        = Normal) ->
     repeat ctx repetitions filter
     = (withEditor
          (Nat.iter repetitions (fun w => fst (replay descriptor argument w))
                    (editor ctx))
          ctx,
        Normal))
  /\ (forall startCursor endCursor,
        edit_search (iterations (recorder ctx)) (recorder ctx)
                    (cursorFromEnd (recorder ctx)) None
        = Found (startCursor, endCursor) ->
        repeat_edit ctx repetitions
        = replay_entries
            (concat (replicate repetitions
                       (span (recorder ctx) startCursor endCursor)))
            (doNotRecord ctx))
  /\ (forall register recording,
        registers ctx !! register = Some recording ->
        recording_play ctx repetitions register
        = replay_entries (concat (replicate repetitions (entries recording))) ctx).
Proof.
  intros _. split_and!.
  - intros filter regexp descriptor argument. apply repeat_all_normal.
  - intros startCursor endCursor. apply repeat_edit_found.
  - intros register recording. apply recording_play_held.
Qed.

(** ** The recording status of a register *)

Lemma has_lookup {V : Type} (table : gmap Register V) (register : Register) :
  has table register = isDefined (table !! register).
Proof. done. Qed.

Lemma status_idle ctx register :
  status ctx register = Idle <-> recordingPerRegister ctx !! register = None.
Proof.
  unfold status, has. by destruct (recordingPerRegister ctx !! register).
Qed.

Lemma recording_start_idle ctx register :
  recordingPerRegister ctx !! register = None ->
  recording_start ctx register
  = (let session := fresh (dom (sessions (recorder ctx))) in
     mkContext (editor ctx)
               (mkRecorder (log (recorder ctx))
                           (<[session := []]> (sessions (recorder ctx)))
                           (capacity (recorder ctx)))
               (doNotRecordFlag ctx)
               (registers ctx)
               (<[register := session]> (recordingPerRegister ctx)),
     Normal).
Proof. intros Hidle. unfold recording_start, has. by rewrite Hidle. Qed.

Lemma recording_start_active ctx register session :
  recordingPerRegister ctx !! register = Some session ->
  recording_start ctx register
  = (ctx, Throw (ArgumentError "a recording is already active" "register")).
Proof. intros Hactive. unfold recording_start, has. by rewrite Hactive. Qed.

Lemma recording_stop_idle ctx register :
  recordingPerRegister ctx !! register = None ->
  recording_stop ctx register
  = (ctx, Throw (ArgumentError "no recording is active in the given register"
                               "register")).
Proof. intros Hidle. unfold recording_stop. by rewrite Hidle. Qed.

Lemma recording_stop_active ctx register session :
  recordingPerRegister ctx !! register = Some session ->
  recording_stop ctx register
  = (mkContext (editor ctx)
               (mkRecorder (log (recorder ctx))
                           (delete session (sessions (recorder ctx)))
                           (capacity (recorder ctx)))
               (doNotRecordFlag ctx)
               (<[register :=
                    mkRecording (default [] (sessions (recorder ctx) !! session))]>
                  (registers ctx))
               (delete register (recordingPerRegister ctx)),
     Normal).
Proof. intros Hactive. unfold recording_stop. by rewrite Hactive. Qed.

Lemma recording_start_invariant ctx register :
  oneSessionPerRegister ctx ->
  oneSessionPerRegister (fst (recording_start ctx register)).
Proof.
  intros (Hopen & Hinjective & Howned).
  destruct (recordingPerRegister ctx !! register) as [session|] eqn:Hstatus.
  { by rewrite (recording_start_active _ _ _ Hstatus). }
  rewrite (recording_start_idle _ _ Hstatus). unfold oneSessionPerRegister. cbn.
  set (session := fresh (dom (sessions (recorder ctx)))).
  assert (sessions (recorder ctx) !! session = None) as Hfresh.
  { apply not_elem_of_dom. apply is_fresh. }
  split_and!.
  - intros r s Hr. apply lookup_insert_Some in Hr as [[<- <-]|[Hne Hr]].
    + rewrite lookup_insert_eq. eauto.
    + apply lookup_insert_is_Some. right. split; [|by eapply Hopen].
      intros <-. apply Hopen in Hr. rewrite Hfresh in Hr. by destruct Hr.
  - intros r1 r2 s Hr1 Hr2.
    apply lookup_insert_Some in Hr1 as [[<- <-]|[Hne1 Hr1]];
      apply lookup_insert_Some in Hr2 as [[<- Hs]|[Hne2 Hr2]]; try done.
    + apply Hopen in Hr2. rewrite Hfresh in Hr2. by destruct Hr2.
    + subst s. apply Hopen in Hr1. rewrite Hfresh in Hr1. by destruct Hr1.
    + by eapply Hinjective.
  - intros s Hs. apply lookup_insert_is_Some in Hs as [<-|[Hne Hs]].
    + exists register. by rewrite lookup_insert_eq.
    + destruct (Howned s Hs) as [r Hr]. exists r.
      rewrite lookup_insert_ne; [done|]. intros <-. by rewrite Hstatus in Hr.
Qed.

Lemma recording_stop_invariant ctx register :
  oneSessionPerRegister ctx ->
  oneSessionPerRegister (fst (recording_stop ctx register)).
Proof.
  intros (Hopen & Hinjective & Howned).
  destruct (recordingPerRegister ctx !! register) as [session|] eqn:Hstatus.
  2: { by rewrite (recording_stop_idle _ _ Hstatus). }
  rewrite (recording_stop_active _ _ _ Hstatus). unfold oneSessionPerRegister. cbn.
  split_and!.
  - intros r s Hr. apply lookup_delete_Some in Hr as [Hne Hr].
    apply lookup_delete_is_Some. split; [|by eapply Hopen].
    intros <-. apply Hne. by eapply Hinjective.
  - intros r1 r2 s Hr1 Hr2.
    apply lookup_delete_Some in Hr1 as [_ Hr1].
    apply lookup_delete_Some in Hr2 as [_ Hr2]. by eapply Hinjective.
  - intros s Hs. apply lookup_delete_is_Some in Hs as [Hne Hs].
    destruct (Howned s Hs) as [r Hr]. exists r.
    apply lookup_delete_Some. split; [|done].
    intros <-. rewrite Hstatus in Hr. by injection Hr.
Qed.

(** C5.  The recording status of a register follows Idle, Recording, Idle.
    On an idle register [recording_start] succeeds and makes it recording,
    and [recording_stop] throws the argument error; on a recording register
    [recording_start] throws the argument error and leaves everything as it
    was, and [recording_stop] succeeds and makes it idle.  Neither command
    changes the status of another register.  Both keep the open sessions of
    the recorder in one-to-one correspondence with the recording registers,
    so a register never has two recordings active. *)
Theorem recording_status_state_machine ctx register :
  match status ctx register with
  | Idle =>
      (exists ctx',
         recording_start ctx register = (ctx', Normal)
         /\ status ctx' register = Recording_active
         /\ forall other, other <> register -> status ctx' other = status ctx other)
      /\ recording_stop ctx register
         = (ctx, Throw (ArgumentError "no recording is active in the given register"
                                      "register"))
  | Recording_active =>
      recording_start ctx register
      = (ctx, Throw (ArgumentError "a recording is already active" "register"))
      /\ (exists ctx',
            recording_stop ctx register = (ctx', Normal)
            /\ status ctx' register = Idle
            /\ forall other, other <> register -> status ctx' other = status ctx other)
  end
  /\ (oneSessionPerRegister ctx ->
      oneSessionPerRegister (fst (recording_start ctx register))
      /\ oneSessionPerRegister (fst (recording_stop ctx register))).
Proof.
  split.
  - unfold status at 1. rewrite has_lookup.
    destruct (recordingPerRegister ctx !! register) as [session|] eqn:Hstatus; cbn.
    + split; [by eapply recording_start_active|].
      eexists. split; [by eapply recording_stop_active|].
      unfold status, has. cbn. rewrite lookup_delete_eq. split; [done|].
      intros other Hother. by rewrite lookup_delete_ne.
    + split; [|by apply recording_stop_idle].
      eexists. split; [by apply recording_start_idle|].
      unfold status, has. cbn. rewrite lookup_insert_eq. split; [done|].
      intros other Hother. by rewrite lookup_insert_ne.
  - intros Hinvariant. split.
    + by apply recording_start_invariant.
    + by apply recording_stop_invariant.
Qed.

(** C6.  A successful [recording_stop] removes the register from the table
    of active recordings, seals the sub-log of its session into a recording
    and stores it on the register, in place of whatever recording the
    register held, the other registers keeping theirs; the session is
    closed, so entries appended later reach neither it nor the stored
    recording; the log and the live state are untouched, and the register
    is idle again. *)
Theorem recording_stop_seals_recording ctx register session sublog :
  recordingPerRegister ctx !! register = Some session ->
  sessions (recorder ctx) !! session = Some sublog ->
  exists ctx',
    recording_stop ctx register = (ctx', Normal)
    /\ recordingPerRegister ctx' = delete register (recordingPerRegister ctx)
    /\ registers ctx' = <[register := mkRecording sublog]> (registers ctx)
    /\ sessions (recorder ctx') = delete session (sessions (recorder ctx))
    /\ log (recorder ctx') = log (recorder ctx)
    /\ editor ctx' = editor ctx
    /\ status ctx' register = Idle
    /\ forall entry,
         let later := withRecorder (Recorder_append (recorder ctx') entry) ctx' in
         registers later !! register = Some (mkRecording sublog)
         /\ sessions (recorder later) !! session = None.
Proof.
  intros Hactive Hsession. eexists. split; [by eapply recording_stop_active|].
  rewrite Hsession. cbn. split_and!; try done.
  - apply status_idle. cbn. apply lookup_delete_eq.
  - intros entry. split; [apply lookup_insert_eq|].
    by rewrite lookup_fmap, lookup_delete_eq.
Qed.

End Properties.

(** * Further properties of the history commands *)

Section HistoryProperties.

Context `{Host}.

Implicit Types (ctx : Context).






(** X3.  An insert session without entries is not a span: when the last
    change to normal mode comes right after a change to insert mode and no
    earlier entry changes to insert mode, [repeat_edit] throws its error,
    since the entry before a change to normal mode is taken as the span
    end without being looked at. *)
Theorem empty_insert_session_is_not_repeated ctx repetitions before after :
  log (recorder ctx)
  = before ++ [ChangeTextEditorMode "insert"; ChangeTextEditorMode "normal"]
      ++ after ->
  Forall (notChangeTo "insert") before ->
  Forall (notChangeTo "normal") after ->
  repeat_edit ctx repetitions
  = (doNotRecord ctx, Throw (Error "cannot find switch to normal or insert mode")).
Proof.
  intros Hlog Hbefore Hafter. apply repeat_edit_not_found.
  unfold iterations, cursorFromEnd.
  set (p := S (length before)).
  assert (log (recorder ctx) !! p = Some (ChangeTextEditorMode "normal")) as Hp.
  { rewrite Hlog. rewrite lookup_app_r by (unfold p; lia).
    by replace (p - length before) with 1 by (unfold p; lia). }
  apply (edit_search_skip _ None p); [| lia | |].
  - intros [|fuel] Hfuel; [lia|]. rewrite edit_search_step. cbn zeta.
    rewrite Hp. cbn [String.eqb Ascii.eqb Bool.eqb andb]. unfold p at 1 2. cbn [pred].
    destruct (length before) as [|q] eqn:Hlength; [done|].
    apply edit_search_no_insert; [unfold p in Hfuel; lia|].
    intros i entry Hi Hentry. rewrite Hlog in Hentry.
    rewrite lookup_app_l in Hentry by lia.
    rewrite Forall_lookup in Hbefore. by eapply Hbefore.
  - apply lookup_lt_Some in Hp. lia.
  - intros i entry Hi Hentry. split; [|done]. rewrite Hlog in Hentry.
    rewrite lookup_app_r in Hentry by (unfold p in *; lia).
    destruct (i - length before) as [|[|j]] eqn:Hj;
      [unfold p in *; lia | unfold p in *; lia |].
    cbn in Hentry. rewrite Forall_lookup in Hafter. by eapply Hafter.
Qed.

(** X4.  Starting a recording on an idle register and stopping it at once
    both succeed and put the table of active recordings and the sessions
    of the recorder back as they were; the log and the live state are
    untouched; the register is left with an empty recording, in place of
    the one it held. *)
Theorem recording_start_then_stop ctx register :
  recordingPerRegister ctx !! register = None ->
  exists ctx1 ctx2,
    recording_start ctx register = (ctx1, Normal)
    /\ recording_stop ctx1 register = (ctx2, Normal)
    /\ recordingPerRegister ctx2 = recordingPerRegister ctx
    /\ sessions (recorder ctx2) = sessions (recorder ctx)
    /\ log (recorder ctx2) = log (recorder ctx)
    /\ editor ctx2 = editor ctx
    /\ registers ctx2 = <[register := mkRecording []]> (registers ctx).
Proof.
  intros Hidle. eexists. eexists. split; [by apply recording_start_idle|].
  cbn zeta. split.
  { eapply recording_stop_active. cbn. apply lookup_insert_eq. }
  cbn. rewrite lookup_insert_eq. cbn. split_and!; try done.
  - by apply delete_insert_id.
  - apply delete_insert_id. apply not_elem_of_dom. apply is_fresh.
Qed.

(** X5.  Recordings on different registers do not interfere: when two
    registers are recording, stopping the one and then the other leaves
    the same context as stopping them in the other order, and all four
    calls succeed. *)
Theorem recording_stops_commute ctx register1 register2 session1 session2 :
  oneSessionPerRegister ctx ->
  register1 <> register2 ->
  recordingPerRegister ctx !! register1 = Some session1 ->
  recordingPerRegister ctx !! register2 = Some session2 ->
  recording_stop (fst (recording_stop ctx register1)) register2
  = recording_stop (fst (recording_stop ctx register2)) register1
  /\ snd (recording_stop ctx register1) = Normal
  /\ snd (recording_stop (fst (recording_stop ctx register1)) register2) = Normal.
Proof.
  intros (_ & Hinjective & _) Hregisters Hfirst Hsecond.
  assert (session1 <> session2) as Hsessions.
  { intros <-. apply Hregisters. by eapply Hinjective. }
  rewrite (recording_stop_active _ _ _ Hfirst), (recording_stop_active _ _ _ Hsecond).
  cbn [fst snd].
  erewrite (recording_stop_active _ register2 session2)
    by (cbn; by rewrite lookup_delete_ne).
  erewrite (recording_stop_active _ register1 session1)
    by (cbn; by rewrite lookup_delete_ne).
  cbn. split_and!; try done.
  rewrite !lookup_delete_ne by done.
  rewrite (delete_delete (sessions (recorder ctx)) session2 session1).
  rewrite (delete_delete (recordingPerRegister ctx) register2 register1).
  by rewrite (insert_insert_ne (registers ctx) register2 register1).
Qed.

End HistoryProperties.

(** * Properties of the dynamic code module *)

Section RunProperties.

Context `{Engine}.

Implicit Types (st : RunState) (code : string) (func : CompiledFunction).

Lemma ensureCacheIsPopulated_frame st :
  canRunArbitraryCode (ensureCacheIsPopulated st) = canRunArbitraryCode st
  /\ functionCache (ensureCacheIsPopulated st) = functionCache st
  /\ clockReadings (ensureCacheIsPopulated st) = clockReadings st.
Proof. unfold ensureCacheIsPopulated. by case_decide. Qed.

Lemma compileFunction_refused st code names :
  permitted st code = false ->
  compileFunction st code names
  = (st, inl (Error "execution of arbitrary code is disabled")).
Proof.
  unfold permitted, compileFunction. intros Hrefused.
  apply orb_false_iff in Hrefused as [-> ->]. done.
Qed.

Lemma compileFunction_hit st code names func time :
  permitted st code = true ->
  functionCache st !! code = Some (func, time) ->
  compileFunction st code names
  = (mkRunState (canRunArbitraryCode st)
                (<[code := (func, clock (clockReadings st))]> (functionCache st))
                (cachedParameterNames st) (cachedParameters st)
                (S (clockReadings st)),
     inr func).
Proof.
  unfold permitted, compileFunction. intros Hpermitted Hcached.
  rewrite <- negb_orb, Hpermitted, Hcached. done.
Qed.

Lemma compileFunction_miss st code names :
  permitted st code = true ->
  functionCache st !! code = None ->
  compileFunction st code names
  = let st1 := ensureCacheIsPopulated st in
    match newAsyncFunction (cachedParameterNames st1 ++ names)
                           ("{" +:+ lineFeed +:+ code +:+ lineFeed +:+ "}") with
    | inl e =>
        (st1, inl (Error ("cannot parse function body: " +:+ code +:+ ": " +:+ e)))
    | inr func =>
        (mkRunState (canRunArbitraryCode st1)
                    (<[code := (func, clock (clockReadings st1))]> (functionCache st1))
                    (cachedParameterNames st1) (cachedParameters st1)
                    (S (clockReadings st1)),
         inr func)
    end.
Proof.
  unfold permitted, compileFunction. intros Hpermitted Hcached.
  rewrite <- negb_orb, Hpermitted, Hcached. cbn.
  by destruct (newAsyncFunction _ _).
Qed.

(** The three ways [compileFunction] can go. *)
Lemma compileFunction_cases st code names :
  (permitted st code = false
   /\ compileFunction st code names
      = (st, inl (Error "execution of arbitrary code is disabled")))
  \/ (permitted st code = true
      /\ exists func time,
           functionCache st !! code = Some (func, time)
           /\ compileFunction st code names
              = (mkRunState (canRunArbitraryCode st)
                   (<[code := (func, clock (clockReadings st))]> (functionCache st))
                   (cachedParameterNames st) (cachedParameters st)
                   (S (clockReadings st)),
                 inr func))
  \/ (permitted st code = true
      /\ functionCache st !! code = None
      /\ ((exists e,
             newAsyncFunction
               (cachedParameterNames (ensureCacheIsPopulated st) ++ names)
               ("{" +:+ lineFeed +:+ code +:+ lineFeed +:+ "}") = inl e
             /\ compileFunction st code names
                = (ensureCacheIsPopulated st,
                   inl (Error ("cannot parse function body: " +:+ code
                                 +:+ ": " +:+ e))))
          \/ (exists func,
                newAsyncFunction
                  (cachedParameterNames (ensureCacheIsPopulated st) ++ names)
                  ("{" +:+ lineFeed +:+ code +:+ lineFeed +:+ "}") = inr func
                /\ compileFunction st code names
                   = (mkRunState
                        (canRunArbitraryCode st)
                        (<[code := (func, clock (clockReadings st))]>
                           (functionCache st))
                        (cachedParameterNames (ensureCacheIsPopulated st))
                        (cachedParameters (ensureCacheIsPopulated st))
                        (S (clockReadings st)),
                      inr func)))).
Proof.
  destruct (permitted st code) eqn:Hpermitted.
  2: { left. split; [done|]. by apply compileFunction_refused. }
  right. destruct (functionCache st !! code) as [[func time]|] eqn:Hcached.
  { left. split; [done|]. exists func, time. split; [done|].
    by eapply compileFunction_hit. }
  right. split_and!; try done.
  rewrite (compileFunction_miss _ _ _ Hpermitted Hcached). cbn zeta.
  destruct (ensureCacheIsPopulated_frame st) as (Hflag & Hcache & Hclock).
  destruct (newAsyncFunction _ _) as [e|func] eqn:Hnew.
  - left. by exists e.
  - right. exists func. split; [done|]. by rewrite Hflag, Hcache, Hclock.
Qed.

(** ** The flag and the safe expressions *)







(** ** The function cache *)

Lemma compileFunction_success st code names st1 func :
  compileFunction st code names = (st1, inr func) ->
  permitted st code = true
  /\ canRunArbitraryCode st1 = canRunArbitraryCode st
  /\ functionCache st1 = <[code := (func, clock (clockReadings st))]> (functionCache st)
  /\ clockReadings st1 = S (clockReadings st).
Proof.
  intros Hcompiled.
  destruct (compileFunction_cases st code names)
    as [[_ Heq]|[(Hp & f & time & _ & Heq)
               |(Hp & _ & [(e & _ & Heq)|(f & _ & Heq)])]];
    rewrite Heq in Hcompiled; try done; by injection Hcompiled as <- <-.
Qed.

Lemma permitted_flag st st1 code :
  canRunArbitraryCode st1 = canRunArbitraryCode st ->
  permitted st1 code = permitted st code.
Proof. unfold permitted. by intros ->. Qed.

(** X8.  The cache is keyed by the code alone: once a function has been
    compiled for a code, a further call of [compileFunction] with that code
    returns the same function whatever additional parameter names it is
    given, without compiling anything, and only refreshes the time stamp
    of the entry. *)
Theorem cached_function_ignores_parameter_names st code names1 st1 func :
  compileFunction st code names1 = (st1, inr func) ->
  forall names2,
  exists st2,
    compileFunction st1 code names2 = (st2, inr func)
    /\ functionCache st2
       = <[code := (func, clock (clockReadings st1))]> (functionCache st1)
    /\ cachedParameterNames st2 = cachedParameterNames st1
    /\ cachedParameters st2 = cachedParameters st1.
Proof.
  intros Hcompiled names2.
  destruct (compileFunction_success _ _ _ _ _ Hcompiled)
    as (Hpermitted & Hflag & Hcache & _).
  eexists. split.
  - eapply compileFunction_hit.
    + by rewrite (permitted_flag _ _ _ Hflag).
    + rewrite Hcache. apply lookup_insert_eq.
  - done.
Qed.

(** X9.  [compileFunction] touches one entry of the cache at most: the
    entries of the other codes stay as they are, a call that throws leaves
    the whole cache as it was, a call that returns a function leaves that
    function under the code with the time of the call, and the flag is
    never changed. *)
Theorem compileFunction_touches_one_entry st code names :
  (forall other,
     other <> code ->
     functionCache (fst (compileFunction st code names)) !! other
     = functionCache st !! other)
  /\ (forall e,
        snd (compileFunction st code names) = inl e ->
        functionCache (fst (compileFunction st code names)) = functionCache st)
  /\ (forall func,
        snd (compileFunction st code names) = inr func ->
        functionCache (fst (compileFunction st code names)) !! code
        = Some (func, clock (clockReadings st)))
  /\ canRunArbitraryCode (fst (compileFunction st code names))
     = canRunArbitraryCode st.
Proof.
  destruct (ensureCacheIsPopulated_frame st) as (Hflag & Hcache & Hclock).
  destruct (compileFunction_cases st code names)
    as [[_ ->]|[(_ & f & time & _ & ->)
               |(_ & _ & [(e & _ & ->)|(f & _ & ->)])]]; cbn;
    split_and!; try done.
  - intros other Hother. by rewrite lookup_insert_ne.
  - intros func [= <-]. apply lookup_insert_eq.
  - intros other Hother. by rewrite Hcache.
  - intros other Hother. by rewrite lookup_insert_ne.
  - intros func [= <-]. apply lookup_insert_eq.
Qed.

Lemma clearCache_lookup st olderThanMs code :
  olderThanMs <> 0%Z ->
  functionCache (clearCache st (Some olderThanMs)) !! code
  = match functionCache st !! code with
    | Some (func, time) =>
        if decide (time < clock (clockReadings st) - olderThanMs)%Z
        then None
        else Some (func, time)
    | None => None
    end.
Proof.
  intros Hnonzero. unfold clearCache. cbn [default].
  case_decide; [done|]. cbn.
  rewrite map_lookup_filter.
  destruct (functionCache st !! code) as [[func time]|]; [|done]. cbn.
  destruct (decide (time < clock (clockReadings st) - olderThanMs)%Z).
  - by rewrite option_guard_False by tauto.
  - by rewrite option_guard_True.
Qed.

(** X10.  A function that [compileFunction] has just returned survives the
    next [clearCache] exactly when the time of that call is not earlier
    than the reading of the clock at the clearing minus [olderThanMs];
    [clearCache(0)] empties the cache whatever the clock says; and
    [clearCache] never adds an entry nor alters one that it keeps. *)
Theorem clearCache_keeps_recently_used st code names st1 func :
  compileFunction st code names = (st1, inr func) ->
  (forall olderThanMs,
     olderThanMs <> 0%Z ->
     functionCache (clearCache st1 (Some olderThanMs)) !! code
     = if decide (clock (clockReadings st)
                  < clock (S (clockReadings st)) - olderThanMs)%Z
       then None
       else Some (func, clock (clockReadings st)))
  /\ functionCache (clearCache st1 (Some 0%Z)) = ∅
  /\ (forall olderThanMs other entry,
        functionCache (clearCache st1 olderThanMs) !! other = Some entry ->
        functionCache st1 !! other = Some entry).
Proof.
  intros Hcompiled.
  destruct (compileFunction_success _ _ _ _ _ Hcompiled)
    as (_ & _ & Hcache & Hclock).
  split_and!.
  - intros olderThanMs Hnonzero. rewrite clearCache_lookup by done.
    by rewrite Hcache, lookup_insert_eq, Hclock.
  - done.
  - intros olderThanMs other entry. unfold clearCache.
    case_decide; cbn; [by rewrite lookup_empty|].
    apply map_lookup_filter_Some_1_1.
Qed.

(** ** The parameters of the compiled functions *)

Lemma ensureCacheIsPopulated_aligned st :
  parametersAligned st ->
  cachedParameterNames (ensureCacheIsPopulated st) = (fst <$> moduleExports) ++ ["vscode"]
  /\ cachedParameters (ensureCacheIsPopulated st)
     = (snd <$> moduleExports) ++ [vscodeModule].
Proof.
  unfold ensureCacheIsPopulated. intros [[Hnames Hvalues]|[Hnames Hvalues]].
  - rewrite Hnames, Hvalues. cbn. done.
  - rewrite Hnames. rewrite decide_True; [done|]. rewrite length_app. cbn. lia.
Qed.

Lemma compileFunction_aligned st code names :
  parametersAligned st -> parametersAligned (fst (compileFunction st code names)).
Proof.
  intros Haligned.
  destruct (compileFunction_cases st code names)
    as [[_ ->]|[(_ & f & time & _ & ->)
               |(_ & _ & [(e & _ & ->)|(f & _ & ->)])]]; cbn; try done;
    right; by apply ensureCacheIsPopulated_aligned.
Qed.

Lemma compileAll_aligned strings :
  forall st names functions,
    parametersAligned st ->
    parametersAligned (fst (compileAll st strings names functions)).
Proof.
  induction strings as [|code strings IH]; intros st names functions Haligned; [done|].
  cbn [compileAll]. pose proof (compileFunction_aligned st code names Haligned) as Hstep.
  destruct (compileFunction st code names) as [st1 [e|func]]; [done|].
  by apply IH.
Qed.

Lemma perform_aligned st operation :
  parametersAligned st -> parametersAligned (perform st operation).
Proof.
  intros Haligned.
  destruct operation as [code names|olderThanMs| |strings context| |];
    cbn [perform].
  - by apply compileFunction_aligned.
  - unfold clearCache. by case_decide.
  - done.
  - unfold run. set (codes := match strings with
                              | OneString code => [code]
                              | ManyStrings codes => codes
                              end).
    pose proof (compileAll_aligned codes st (fst <$> context) [] Haligned) as Hall.
    destruct (compileAll st codes (fst <$> context) []) as [st1 [e|functions]];
      [done|].
    cbn [fst] in Hall. unfold parameterValues.
    assert (parametersAligned (ensureCacheIsPopulated st1)) as Hpopulated.
    { right. by apply ensureCacheIsPopulated_aligned. }
    by destruct strings, functions.
  - right. by apply ensureCacheIsPopulated_aligned.
  - right. by apply ensureCacheIsPopulated_aligned.
Qed.

(** X11.  Whatever operations of the module have been performed since it
    was loaded, [parameterNames()] returns the names of the exports
    followed by [vscode] and [parameterValues()] returns the values of the
    exports followed by the [vscode] module: the two arrays agree position
    by position, and they are built once. *)
Theorem parameter_names_and_values_agree operations :
  let st := foldl perform initialRunState operations in
  snd (parameterNames st) = (fst <$> moduleExports) ++ ["vscode"]
  /\ snd (parameterValues st) = (snd <$> moduleExports) ++ [vscodeModule]
  /\ length (snd (parameterNames st)) = length (snd (parameterValues st))
  /\ fst (parameterNames (fst (parameterValues st))) = fst (parameterValues st).
Proof.
  cbn zeta.
  assert (forall operations st0,
            parametersAligned st0 ->
            parametersAligned (foldl perform st0 operations)) as Hstays.
  { induction operations0 as [|operation rest IH]; intros st0 Haligned; [done|].
    cbn [foldl]. apply IH. by apply perform_aligned. }
  assert (parametersAligned (foldl perform initialRunState operations)) as Haligned.
  { apply Hstays. by left. }
  destruct (ensureCacheIsPopulated_aligned _ Haligned) as [Hnames Hvalues].
  unfold parameterNames, parameterValues. cbn [fst snd].
  split_and!; try done.
  - rewrite Hnames, Hvalues. by rewrite !length_app, !length_fmap.
  - unfold ensureCacheIsPopulated at 1. rewrite Hnames.
    rewrite decide_True; [done|]. rewrite length_app. cbn. lia.
Qed.

(** ** run *)

Lemma compileFunction_keeps_function st code names other func time :
  functionCache st !! other = Some (func, time) ->
  exists time',
    functionCache (fst (compileFunction st code names)) !! other = Some (func, time').
Proof.
  intros Hcached.
  destruct (ensureCacheIsPopulated_frame st) as (_ & Hcache & _).
  destruct (compileFunction_cases st code names)
    as [[_ ->]|[(_ & f & t & Hhit & ->)
               |(_ & Hmiss & [(e & _ & ->)|(f & _ & ->)])]]; cbn.
  - eauto.
  - destruct (decide (other = code)) as [->|Hne].
    + rewrite Hhit in Hcached. injection Hcached as -> ->.
      rewrite lookup_insert_eq. eauto.
    + rewrite lookup_insert_ne by done. eauto.
  - rewrite Hcache. eauto.
  - destruct (decide (other = code)) as [->|Hne].
    + by rewrite Hmiss in Hcached.
    + rewrite lookup_insert_ne by done. eauto.
Qed.

Lemma compileAll_keeps_function strings :
  forall st names functions other func time,
    functionCache st !! other = Some (func, time) ->
    exists time',
      functionCache (fst (compileAll st strings names functions)) !! other
      = Some (func, time').
Proof.
  induction strings as [|code strings IH]; intros st names functions other func time
    Hcached; cbn [compileAll]; [by eauto|].
  destruct (compileFunction_keeps_function st code names _ _ _ Hcached)
    as [time1 Hstep].
  destruct (compileFunction st code names) as [st1 [e|f]]; cbn [fst] in *; eauto.
Qed.

(** What the compilation loop returns on success: a function per string,
    in order, each one cached under its string at the end. *)
Lemma compileAll_success strings :
  forall st names functions st' result,
    compileAll st strings names functions = (st', inr result) ->
    canRunArbitraryCode st' = canRunArbitraryCode st
    /\ exists compiled,
         result = functions ++ compiled
         /\ length compiled = length strings
         /\ forall index code,
              strings !! index = Some code ->
              permitted st code = true
              /\ exists func time,
                   compiled !! index = Some func
                   /\ functionCache st' !! code = Some (func, time).
Proof.
  induction strings as [|code strings IH]; intros st names functions st' result Hall;
    cbn [compileAll] in Hall.
  - injection Hall as <- <-. split; [done|]. exists []. by rewrite app_nil_r.
  - destruct (compileFunction st code names) as [st1 [e|func]] eqn:Hstep; [done|].
    destruct (compileFunction_success _ _ _ _ _ Hstep)
      as (Hpermitted & Hflag & Hcache & _).
    destruct (IH _ _ _ _ _ Hall) as (Hflag' & compiled & -> & Hlength & Heach).
    split; [congruence|]. exists (func :: compiled). split_and!.
    + by rewrite <- app_assoc.
    + cbn. by rewrite Hlength.
    + intros [|index] code' Hcode; cbn in Hcode.
      * injection Hcode as <-. split; [done|].
        assert (functionCache st1 !! code
                = Some (func, clock (clockReadings st))) as Hcached.
        { rewrite Hcache. apply lookup_insert_eq. }
        destruct (compileAll_keeps_function strings st1 names (functions ++ [func])
                    _ _ _ Hcached) as [time Hkept].
        rewrite Hall in Hkept. eauto.
      * destruct (Heach _ _ Hcode) as [Hp Hrest].
        split; [by rewrite <- (permitted_flag _ _ _ Hflag)|done].
Qed.

(** The compilation loop on strings that are all cached: it returns the
    cached functions and leaves the parameter arrays alone. *)
Lemma compileAll_cached strings :
  forall st names functions cached,
    length cached = length strings ->
    (forall index code,
       strings !! index = Some code ->
       permitted st code = true
       /\ exists func time,
            cached !! index = Some func
            /\ functionCache st !! code = Some (func, time)) ->
    exists st',
      compileAll st strings names functions = (st', inr (functions ++ cached))
      /\ cachedParameterNames st' = cachedParameterNames st
      /\ cachedParameters st' = cachedParameters st.
Proof.
  induction strings as [|code strings IH]; intros st names functions cached
    Hlength Heach; cbn [compileAll].
  - destruct cached; [|done]. exists st. by rewrite app_nil_r.
  - destruct cached as [|func cached]; [done|].
    destruct (Heach 0 code eq_refl) as (Hpermitted & f & time & Hf & Hcached).
    injection Hf as <-.
    rewrite (compileFunction_hit _ _ _ _ _ Hpermitted Hcached).
    set (st1 := mkRunState _ _ _ _ _).
    destruct (IH st1 names (functions ++ [func]) cached) as (st' & Hall & Hn & Hv).
    + cbn in Hlength. lia.
    + intros index code' Hcode.
      destruct (Heach (S index) code' Hcode) as (Hp & f & t & Hf & Hc).
      split; [done|]. cbn in Hf. unfold st1. cbn.
      destruct (decide (code' = code)) as [->|Hne].
      * rewrite Hc in Hcached. injection Hcached as -> ->.
        rewrite lookup_insert_eq. eauto.
      * rewrite lookup_insert_ne by done. eauto.
    + exists st'. rewrite Hall, <- app_assoc. done.
Qed.

(** X12.  When [run] completes, it calls one function per string given, in
    the order of the strings; every call receives the parameter values
    followed by the values of the context; and the function called for a
    string is the one the cache holds for that string afterwards. *)
Theorem run_calls_one_function_per_string st strings context st' result :
  run st strings context = (st', inr result) ->
  let arguments := cachedParameters st' ++ (snd <$> context) in
  match strings, result with
  | OneString code, SingleCall func given =>
      given = arguments
      /\ exists time, functionCache st' !! code = Some (func, time)
  | ManyStrings codes, AllCalls calls =>
      length calls = length codes
      /\ forall index code,
           codes !! index = Some code ->
           exists func time,
             calls !! index = Some (func, arguments)
             /\ functionCache st' !! code = Some (func, time)
  | _, _ => False
  end.
Proof.
  unfold run. intros Hrun.
  destruct (compileAll st _ (fst <$> context) []) as [st1 [e|functions]] eqn:Hall;
    [done|].
  destruct (compileAll_success _ _ _ _ _ _ Hall)
    as (_ & compiled & Hresult & Hlength & Heach).
  cbn [app] in Hresult. subst functions.
  destruct (ensureCacheIsPopulated_frame st1) as (_ & Hcache & _).
  unfold parameterValues in Hrun. destruct strings as [code|codes].
  - destruct compiled as [|func compiled]; [done|].
    injection Hrun as <- <-. split; [done|].
    destruct (Heach 0 code eq_refl) as (_ & f & time & Hf & Hcached).
    injection Hf as <-. rewrite Hcache. eauto.
  - injection Hrun as <- <-. split; [by rewrite length_fmap|].
    intros index code Hcode.
    destruct (Heach _ _ Hcode) as (_ & func & time & Hf & Hcached).
    exists func, time. rewrite list_lookup_fmap, Hf, Hcache. done.
Qed.

(** X13.  Running the same strings again, with nothing of the module
    called in between, calls the very same functions with the same
    arguments: everything is served from the cache. *)
Theorem run_again_calls_the_same_functions st strings context st1 result :
  run st strings context = (st1, inr result) ->
  exists st2, run st1 strings context = (st2, inr result).
Proof.
  unfold run. intros Hrun.
  set (codes := match strings with
                | OneString code => [code]
                | ManyStrings codes => codes
                end) in *.
  destruct (compileAll st codes (fst <$> context) []) as [st0 [e|functions]] eqn:Hall;
    [done|].
  destruct (compileAll_success _ _ _ _ _ _ Hall)
    as (Hflag & compiled & Hresult & Hlength & Heach).
  cbn [app] in Hresult. subst functions.
  destruct (ensureCacheIsPopulated_frame st0) as (Hflag0 & Hcache0 & _).
  assert (st1 = ensureCacheIsPopulated st0
          /\ result
             = match strings with
               | OneString _ =>
                   match compiled with
                   | func :: _ =>
                       SingleCall func (cachedParameters (ensureCacheIsPopulated st0)
                                          ++ (snd <$> context))
                   | [] => result
                   end
               | ManyStrings _ =>
                   AllCalls ((fun func =>
                                (func, cachedParameters (ensureCacheIsPopulated st0)
                                         ++ (snd <$> context))) <$> compiled)
               end) as [-> Hshape].
  { unfold parameterValues in Hrun.
    destruct strings, compiled; try done; by injection Hrun as <- <-. }
  destruct (compileAll_cached codes (ensureCacheIsPopulated st0) (fst <$> context)
              [] compiled Hlength) as (st2 & Hagain & Hnames & Hvalues).
  { intros index code Hcode.
    destruct (Heach _ _ Hcode) as (Hp & func & time & Hf & Hcached).
    split.
    - rewrite (permitted_flag st); [done | congruence].
    - exists func, time. by rewrite Hcache0. }
  rewrite Hagain. cbn [app].
  assert (ensureCacheIsPopulated st2 = st2) as Hpopulated.
  { unfold ensureCacheIsPopulated. rewrite decide_True; [done|].
    rewrite Hnames. unfold ensureCacheIsPopulated. case_decide; [done|].
    cbn. rewrite length_app. cbn. lia. }
  unfold parameterValues. rewrite Hpopulated, Hvalues.
  exists st2. subst codes.
  destruct strings, compiled; cbn in Hlength; try done; by rewrite Hshape.
Qed.

(** X14.  A function compiled by [run] for a single string that was not
    cached is called with one argument for each parameter it was compiled
    with: the parameter names and the keys of the context on the one side,
    the parameter values and the values of the context on the other. *)
Theorem run_fresh_function_arity st code context st' func given :
  parametersAligned st ->
  functionCache st !! code = None ->
  run st (OneString code) context = (st', inr (SingleCall func given)) ->
  let names := ((fst <$> moduleExports) ++ ["vscode"]) ++ (fst <$> context) in
  newAsyncFunction names ("{" +:+ lineFeed +:+ code +:+ lineFeed +:+ "}") = inr func
  /\ given = ((snd <$> moduleExports) ++ [vscodeModule]) ++ (snd <$> context)
  /\ length given = length names.
Proof.
  intros Haligned Hmiss Hrun. cbn zeta. unfold run in Hrun. cbn [compileAll] in Hrun.
  destruct (ensureCacheIsPopulated_aligned _ Haligned) as [Hnames Hvalues].
  destruct (compileFunction_cases st code (fst <$> context))
    as [[_ Heq]|[(_ & f & time & Hhit & Heq)
               |(_ & _ & [(e & _ & Heq)|(f & Hnew & Heq)])]];
    rewrite Heq in Hrun; try done.
  { by rewrite Hmiss in Hhit. }
  cbn in Hrun. injection Hrun as <- <- <-.
  rewrite Hnames in Hnew.
  assert (cachedParameters
            (ensureCacheIsPopulated
               (mkRunState (canRunArbitraryCode st)
                  (<[code := (f, clock (clockReadings st))]> (functionCache st))
                  (cachedParameterNames (ensureCacheIsPopulated st))
                  (cachedParameters (ensureCacheIsPopulated st))
                  (S (clockReadings st))))
          = (snd <$> moduleExports) ++ [vscodeModule]) as ->.
  { unfold ensureCacheIsPopulated at 1. cbn. rewrite Hnames.
    rewrite decide_True; [by cbn | rewrite length_app; cbn; lia]. }
  split_and!; [done | done |]. by rewrite !length_app, !length_fmap.
Qed.

End RunProperties.

(** * Properties of the validation *)

Section ValidateProperties.

Context `{Engine} `{Strings}.

(** X15.  Once arbitrary code is disabled, [switchRun.validate] throws for
    every string that is neither a regular expression nor a shell command,
    the safe expressions included, since what it compiles starts with
    [return]; the state is left as it was.  [run] itself still accepts the
    safe expression [i]: it never refuses it with the error of the disabled
    module. *)
Theorem validate_rejects_expressions_when_disabled st (string : string) :
  canRunArbitraryCode st = false ->
  String.prefix "/" string = false ->
  String.prefix "#" string = false ->
  (validate st string = (st, Some (Error "the given string cannot be empty"))
   \/ validate st string
      = (st, Some (Error "execution of arbitrary code is disabled")))
  /\ forall context,
       snd (run st (OneString "i") context)
       <> inl (Error "execution of arbitrary code is disabled").
Proof.
  intros Hdisabled Hslash Hhash. split.
  - unfold validate. destruct (isBlank string); [by left|]. right.
    assert (compileFunction st ("return " +:+ string) ["$"; "i"; "$$"]
            = (st, inl (Error "execution of arbitrary code is disabled")))
      as Hrefused.
    { apply compileFunction_refused. unfold permitted. by rewrite Hdisabled. }
    rewrite Hrefused. destruct string as [|first rest]; [done|].
    cbn in Hslash, Hhash.
    destruct (Ascii.eqb first "/") eqn:Hfirst.
    { apply Ascii.eqb_eq in Hfirst as ->. by destruct rest. }
    destruct (Ascii.eqb first "#") eqn:Hsecond; [|done].
    apply Ascii.eqb_eq in Hsecond as ->. by destruct rest.
  - intros context. unfold run. cbn [compileAll].
    destruct (compileFunction_cases st "i" (fst <$> context))
      as [[Hrefused _]|[(_ & f & time & _ & ->)
                       |(_ & _ & [(e & _ & ->)|(f & _ & ->)])]]; try done.
    unfold permitted in Hrefused. cbn in Hrefused.
    by rewrite orb_true_r in Hrefused.
Qed.

End ValidateProperties.

(** * Properties of commands *)

Section CommandsProperties.

Context `{Registry}.

Implicit Types (batches : list Batch) (currentBatch : list CommandState).

Lemma qualify_no_dot commandName : String.prefix "." (qualify commandName) = false.
Proof.
  unfold qualify. by destruct (String.prefix "." commandName) eqn:Hdot.
Qed.

Lemma alternating_snoc batches batch :
  alternating batches ->
  (forall previous, last batches = Some previous ->
                    isDanceBatch previous = true -> isDanceBatch batch = false) ->
  alternating (batches ++ [batch]).
Proof.
  intros Halternating Hlast index first second Hfirst Hsecond Hdance.
  destruct (decide (S index < length batches)) as [Hin|Hout].
  - rewrite lookup_app_l in Hfirst by lia. rewrite lookup_app_l in Hsecond by lia.
    by apply (Halternating index first second).
  - destruct (decide (S index = length batches)) as [Hedge|Hbeyond].
    + rewrite lookup_app_l in Hfirst by lia.
      rewrite lookup_app_r in Hsecond by lia.
      replace (S index - length batches) with 0 in Hsecond by lia.
      injection Hsecond as <-. apply (Hlast first); [|done].
      rewrite last_lookup. by replace (pred (length batches)) with index by lia.
    + apply lookup_lt_Some in Hsecond. rewrite length_app in Hsecond.
      cbn in Hsecond. lia.
Qed.



Lemma flush_invariant batches currentBatch :
  Forall wellFormedBatch batches ->
  alternating batches ->
  (forall previous, last batches = Some previous -> isDanceBatch previous = false) ->
  Forall wellFormedBatch (flush batches currentBatch)
  /\ alternating (flush batches currentBatch).
Proof.
  intros Hformed Halternating Hlast. unfold flush. case_decide; [|done]. split.
  - apply Forall_app. split; [done|]. apply Forall_singleton. cbn.
    intros ->. cbn in *. lia.
  - apply alternating_snoc; [done|]. intros previous Hprevious Hdance.
    by rewrite (Hlast _ Hprevious) in Hdance.
Qed.

(** The loop keeps the batches well formed and alternating; while it runs,
    the last batch pushed is never a batch of Dance commands. *)
Lemma buildBatches_invariant commands :
  forall batches currentBatch editor editor' result,
    buildBatches commands batches currentBatch editor = (editor', inr result) ->
    Forall wellFormedBatch batches ->
    alternating batches ->
    (forall previous, last batches = Some previous -> isDanceBatch previous = false) ->
    Forall wellFormedBatch result /\ alternating result.
Proof.
  induction commands as [|command commands IH];
    intros batches currentBatch editor editor' result Hbuild Hformed Halternating Hlast;
    cbn [buildBatches] in Hbuild.
  - injection Hbuild as _ <-. by apply flush_invariant.
  - destruct (nameAndArguments command) as [e|[commandName commandArguments]];
      [done|].
    destruct (commandsByName (qualify commandName)) as [descriptor|] eqn:Hregistered.
    + destruct (getInput descriptor commandArguments editor) as [editor1 [e|input]];
        [done|].
      destruct (requiresInput descriptor && negb (isDefined input))%bool.
      * injection Hbuild as _ <-. by apply flush_invariant.
      * by eapply IH.
    + destruct (String.prefix "dance." (qualify commandName)) eqn:Hprefix; [done|].
      destruct (flush_invariant batches currentBatch Hformed Halternating Hlast)
        as [Hformed' Halternating'].
      eapply IH; [exact Hbuild | | |].
      * apply Forall_app. split; [done|]. apply Forall_singleton. cbn.
        split_and!; [done | done | apply qualify_no_dot].
      * apply alternating_snoc; [done|]. by intros.
      * intros previous. rewrite last_snoc. by intros [= <-].
Qed.



(** X16.  The batches [commands] builds are well formed: a batch of Dance
    commands is never empty, two batches of Dance commands never follow
    each other (consecutive Dance commands share one batch), and a command
    handed to the editor has a name that is not a Dance command and starts
    neither with a dot nor with the prefix of the Dance commands. *)
Theorem commands_batches_are_well_formed commands editor editor' batches :
  buildBatches commands [] [] editor = (editor', inr batches) ->
  Forall wellFormedBatch batches /\ alternating batches.
Proof.
  intros Hbuild. eapply buildBatches_invariant; [exact Hbuild | done | |done].
  intros index first second Hfirst. by rewrite lookup_nil in Hfirst.
Qed.



End CommandsProperties.

(** * The commands at work on concrete logs *)

Import Demo.


(** The end of a located span is not the position after a change to normal
    mode: in [editLog] the only such change is at position 4, and the span
    ends at position 3, so that the change itself is not replayed. *)
Lemma repeat_edit_span_ends_before_normal :
  let rec := recorder (context editLog false) in
  exists startCursor endCursor,
    edit_search (iterations rec) rec (cursorFromEnd rec) None
    = Found (startCursor, endCursor)
    /\ position endCursor = 3
    /\ changesModeAt rec 4 "normal"
    /\ ~ (exists index,
            changesModeAt rec index "normal" /\ position endCursor = S index)
    /\ editor (fst (repeat_edit (context editLog false) 1))
       = (["insert x"; "insert y"], false).
Proof.
  exists (mkCursor 2), (mkCursor 3). split_and!; try reflexivity.
  intros (index & Hnormal & Hindex). cbn in Hindex.
  injection Hindex as <-. discriminate Hnormal.
Defined.

Lemma repeat_edit_locates_span_witness :
  let rec := recorder (context editLog false) in
  edit_search (iterations rec) rec (cursorFromEnd rec) None
  = Found (mkCursor 2, mkCursor 3)
  /\ span rec (mkCursor 2) (mkCursor 3)
     = [ExecuteCommand insertText "x"; ExecuteCommand insertText "y"]
  /\ changesModeAt rec 4 "normal"
  /\ changesModeAt rec 1 "insert"
  /\ repeat_edit (context seekLog false) 2
     = (doNotRecord (context seekLog false),
        Throw (Error "cannot find switch to normal or insert mode")).
Proof.
  cbn zeta.
  destruct (repeat_edit_locates_span (context editLog false) 2)
    as (_ & Hbracket & Hrecent & _ & _).
  destruct (Hrecent [ExecuteCommand seek "a"] [ExecuteCommand insertText "x"]
                    (ExecuteCommand insertText "y") [ExecuteCommand seek "b"]
                    eq_refl)
    as [Hfound Hspan]; [by repeat constructor | by repeat constructor |].
  destruct (Hbracket _ _ Hfound) as (Hnormal & _ & Hinsert & _).
  destruct (repeat_edit_locates_span (context seekLog false) 2)
    as (_ & _ & _ & Hfail & Hnone).
  split_and!; [exact Hfound | exact Hspan | exact Hnormal | exact Hinsert |].
  apply Hfail, Hnone. right. by repeat constructor.
Defined.

Lemma repeat_edit_replays_whole_span_witness :
  editor (fst (repeat_edit (context editLog false) 2))
  = (["insert x"; "insert y"; "insert x"; "insert y"], false)
  /\ snd (repeat_edit (context editLog false) 2) = Normal.
Proof.
  destruct (repeat_edit_replays_whole_span
              (context editLog false) 2 (mkCursor 2) (mkCursor 3) eq_refl)
    as [Hrun _].
  rewrite Hrun. split; reflexivity.
Defined.


(** Starting and stopping a recording on one register, from a context
    without any recording. *)
Lemma recording_status_state_machine_witness :
  oneSessionPerRegister
    (fst (recording_stop (fst (recording_start (context [] false) "q")) "q"))
  /\ status (fst (recording_start (context [] false) "q")) "q" = Recording_active
  /\ snd (recording_start (fst (recording_start (context [] false) "q")) "q")
     = Throw (ArgumentError "a recording is already active" "register").
Proof.
  assert (oneSessionPerRegister (context [] false)) as Hempty.
  { split_and!; cbn; intros; simplify_map_eq; by destruct select (is_Some _). }
  destruct (recording_status_state_machine (context [] false) "q")
    as [_ Hinvariant].
  destruct (Hinvariant Hempty) as [Hstarted _].
  destruct (recording_status_state_machine
              (fst (recording_start (context [] false) "q")) "q")
    as [_ Hinvariant'].
  destruct (Hinvariant' Hstarted) as [_ Hstopped].
  split_and!; [exact Hstopped | reflexivity | reflexivity].
Defined.

(** A register that holds a recording and is recording again: stopping
    replaces the recording it held by the sub-log of the session. *)
Lemma recording_stop_seals_recording_witness :
  registers (fst (recording_stop recordingContext "q")) !! "q"
  = Some (mkRecording [ExecuteCommand seek "a"])
  /\ status (fst (recording_stop recordingContext "q")) "q" = Idle.
Proof.
  destruct (recording_stop_seals_recording
              recordingContext "q" 7 [ExecuteCommand seek "a"] eq_refl eq_refl)
    as (ctx' & Hstop & _ & Hregisters & _ & _ & _ & Hidle & _).
  rewrite Hstop. cbn [fst]. rewrite Hregisters. split; [reflexivity | exact Hidle].
Defined.

(** A replay that throws in the third iteration of [repeat] and of
    [recording_play], and in the second iteration of [repeat_edit]. *)
Lemma replay_failure_aborts_repetitions_witness :
  repeat (context [ExecuteCommand flaky "f"] false) 5 (Some (FilterString "flaky"))
  = (withEditor (["flaky f"; "flaky f"; "flaky f"], false)
                (context [ExecuteCommand flaky "f"] false),
     Throw (Thrown "flaky failed"))
  /\ repeat_edit (context flakyLog false) 5
     = (withEditor (["insert x"; "flaky f"; "insert x"; "flaky f"], false)
                   (doNotRecord (context flakyLog false)),
        Throw (Thrown "flaky failed"))
  /\ recording_play (withMacro flakyMacro (context [] false)) 5 "q"
     = (withEditor (["flaky f"; "flaky f"; "flaky f"], false)
                   (withMacro flakyMacro (context [] false)),
        Throw (Thrown "flaky failed")).
Proof.
  split_and!.
  - destruct (replay_failure_aborts_repetitions
                (context [ExecuteCommand flaky "f"] false) 2 5
                (Thrown "flaky failed") ltac:(lia))
      as (Hrepeat & _ & _).
    eapply (Hrepeat (Some (FilterString "flaky")) _ flaky "f"
                    (withEditor (H := host) (["flaky f"; "flaky f"], false)
                                (context [ExecuteCommand flaky "f"] false))
                    ((["flaky f"; "flaky f"; "flaky f"], false) : @World host));
      reflexivity.
  - destruct (replay_failure_aborts_repetitions
                (context flakyLog false) 1 5 (Thrown "flaky failed") ltac:(lia))
      as (_ & Hedit & _).
    eapply (Hedit (mkCursor 1) (mkCursor 2)
                  [ExecuteCommand insertText "x"] (ExecuteCommand flaky "f") []
                  (withEditor (H := host) (["insert x"; "flaky f"], false)
                              (doNotRecord (context flakyLog false)))
                  (withEditor (H := host) (["insert x"; "flaky f"; "insert x"], false)
                              (doNotRecord (context flakyLog false))));
      reflexivity.
  - destruct (replay_failure_aborts_repetitions
                (withMacro flakyMacro (context [] false)) 2 5
                (Thrown "flaky failed") ltac:(lia))
      as (_ & _ & Hplay).
    eapply (Hplay "q" flakyMacro [] (ExecuteCommand flaky "f") []
                  (withEditor (H := host) (["flaky f"; "flaky f"], false)
                              (withMacro flakyMacro (context [] false)))
                  (withEditor (H := host) (["flaky f"; "flaky f"], false)
                              (withMacro flakyMacro (context [] false))));
      reflexivity.
Defined.

(** Cancellation is requested before the commands start and stays
    requested, and every repetition is performed all the same. *)
Lemma cancellation_does_not_stop_repetitions :
  isCancellationRequested (editor (context seekLog true)) = true
  /\ repeat (context seekLog true) 3 (Some (FilterString "seek"))
     = (withEditor (["seek b"; "seek b"; "seek b"], true) (context seekLog true),
        Normal)
  /\ repeat_edit (context editLog true) 2
     = (withEditor (["insert x"; "insert y"; "insert x"; "insert y"], true)
                   (doNotRecord (context editLog true)),
        Normal)
  /\ recording_play (withMacro macro (context [] true)) 2 "q"
     = (withEditor (["seek a"; "insert x"; "seek a"; "insert x"], true)
                   (withMacro macro (context [] true)),
        Normal).
Proof. split_and!; reflexivity. Qed.

Lemma repetition_loops_ignore_cancellation_witness :
  repeat (context seekLog true) 3 (Some (FilterString "seek"))
  = (withEditor (["seek b"; "seek b"; "seek b"], true) (context seekLog true),
     Normal)
  /\ editor (fst (repeat_edit (context editLog true) 2))
     = (["insert x"; "insert y"; "insert x"; "insert y"], true)
  /\ editor (fst (recording_play (withMacro macro (context [] true)) 2 "q"))
     = (["seek a"; "insert x"; "seek a"; "insert x"], true).
Proof.
  split_and!.
  - destruct (repetition_loops_ignore_cancellation (context seekLog true) 3 eq_refl)
      as (Hrepeat & _ & _).
    eapply (Hrepeat (Some (FilterString "seek")) _ seek "b");
      [reflexivity | reflexivity | intros k Hk; reflexivity].
  - destruct (repetition_loops_ignore_cancellation (context editLog true) 2 eq_refl)
      as (_ & Hedit & _).
    rewrite (Hedit (mkCursor 2) (mkCursor 3) eq_refl). reflexivity.
  - destruct (repetition_loops_ignore_cancellation
                (withMacro macro (context [] true)) 2 eq_refl)
      as (_ & _ & Hplay).
    rewrite (Hplay "q" macro eq_refl). reflexivity.
Defined.

(** No repetition asked for: the failures are the same, and a successful
    search or validation changes nothing. *)
Lemma zero_repetitions_still_validate_witness :
  repeat (context seekLog false) 0 (Some (FilterString "undo"))
  = (context seekLog false, Throw (Error "no previous command matching /undo/u"))
  /\ repeat (context seekLog false) 0 (Some (FilterString "seek"))
     = (context seekLog false, Normal)
  /\ recording_play (context seekLog false) 0 "q"
     = (context seekLog false,
        Throw (ArgumentError (noRecordingMessage "q") "recording")).
Proof.
  destruct (zero_repetitions_still_validate (context seekLog false))
    as [Hrepeat Hplay].
  split_and!.
  - edestruct (Hrepeat (Some (FilterString "undo"))) as [Hnone _]; [reflexivity|].
    apply Hnone. by repeat constructor.
  - edestruct (Hrepeat (Some (FilterString "seek"))) as [_ Hsome]; [reflexivity|].
    apply Hsome. by apply Exists_cons_hd.
  - exact (Hplay "q").
Defined.

(** * The further properties at work *)

Import DemoApi.

(** A log whose only insert session is empty. *)
Lemma empty_insert_session_is_not_repeated_witness :
  repeat_edit
    (context [ExecuteCommand seek "a"; ChangeTextEditorMode "insert";
              ChangeTextEditorMode "normal"; ExecuteCommand seek "b"] false) 2
  = (doNotRecord
       (context [ExecuteCommand seek "a"; ChangeTextEditorMode "insert";
                 ChangeTextEditorMode "normal"; ExecuteCommand seek "b"] false),
     Throw (Error "cannot find switch to normal or insert mode")).
Proof.
  apply (empty_insert_session_is_not_repeated _ 2
           [ExecuteCommand seek "a"] [ExecuteCommand seek "b"]);
    [reflexivity | by repeat constructor | by repeat constructor].
Defined.

(** Starting and stopping at once on a register that holds a recording. *)
Lemma recording_start_then_stop_witness :
  recordingPerRegister
    (fst (recording_stop
            (fst (recording_start (withMacro macro (context [] false)) "q")) "q"))
  = ∅
  /\ registers
       (fst (recording_stop
               (fst (recording_start (withMacro macro (context [] false)) "q")) "q"))
     !! "q"
     = Some (mkRecording []).
Proof.
  destruct (recording_start_then_stop (withMacro macro (context [] false)) "q" eq_refl)
    as (ctx1 & ctx2 & Hstart & Hstop & Htable & _ & _ & _ & Hregisters).
  rewrite Hstart. cbn [fst]. rewrite Hstop. cbn [fst].
  split; [exact Htable | rewrite Hregisters; apply lookup_insert_eq].
Defined.

Lemma recording_stops_commute_witness :
  recording_stop (fst (recording_stop twoRecordings "q")) "r"
  = recording_stop (fst (recording_stop twoRecordings "r")) "q"
  /\ snd (recording_stop (fst (recording_stop twoRecordings "q")) "r") = Normal.
Proof.
  assert (oneSessionPerRegister (context [] false)) as Hempty.
  { split_and!; cbn; intros; simplify_map_eq; by destruct select (is_Some _). }
  assert (oneSessionPerRegister twoRecordings) as Htwo.
  { unfold twoRecordings. by do 2 apply recording_start_invariant. }
  destruct (recording_stops_commute twoRecordings "q" "r" 0 1 Htwo)
    as (Hcommute & _ & Hnormal); [done | reflexivity | reflexivity |].
  by split.
Defined.



(** The function compiled with the parameter [x] is returned when the same
    code is compiled with the parameters [y] and [z]. *)
Lemma cached_function_ignores_parameter_names_witness :
  snd (compileFunction compiledOnce "1 + 1" ["y"; "z"])
  = inr (compiled ["command"; "run"; "vscode"; "x"] (block "1 + 1")).
Proof.
  destruct (cached_function_ignores_parameter_names
              initialRunState "1 + 1" ["x"] compiledOnce
              (compiled ["command"; "run"; "vscode"; "x"] (block "1 + 1")) eq_refl
              ["y"; "z"])
    as (st2 & Hagain & _).
  by rewrite Hagain.
Defined.

Lemma compileFunction_touches_one_entry_witness :
  functionCache (fst (compileFunction compiledOnce "2" [])) !! "1 + 1"
  = functionCache compiledOnce !! "1 + 1".
Proof.
  destruct (compileFunction_touches_one_entry compiledOnce "2" [])
    as (Hothers & _).
  by apply Hothers.
Defined.

(** The function was compiled at the reading 0 of the clock and the cache
    is cleared at the reading 1000: it is kept when entries up to 1000
    milliseconds old are kept, and removed when the bound is 999. *)
Lemma clearCache_keeps_recently_used_witness :
  is_Some (functionCache (clearCache compiledOnce (Some 1000%Z)) !! "1 + 1")
  /\ functionCache (clearCache compiledOnce (Some 999%Z)) !! "1 + 1" = None.
Proof.
  destruct (clearCache_keeps_recently_used
              initialRunState "1 + 1" ["x"] compiledOnce
              (compiled ["command"; "run"; "vscode"; "x"] (block "1 + 1")) eq_refl)
    as (Hkept & _ & _).
  split.
  - rewrite (Hkept 1000%Z) by done. by eexists.
  - by rewrite (Hkept 999%Z) by done.
Defined.

Lemma run_calls_one_function_per_string_witness :
  exists calls,
    snd (run initialRunState (ManyStrings ["1"; "2"; "1"]) someContext)
    = inr (AllCalls calls)
    /\ length calls = 3.
Proof.
  pose proof (run_calls_one_function_per_string
                initialRunState (ManyStrings ["1"; "2"; "1"]) someContext
                (fst (run initialRunState (ManyStrings ["1"; "2"; "1"]) someContext))
                (AllCalls
                   [(compiled ["command"; "run"; "vscode"; "k"] (block "1"),
                     (values ["<command>"; "<run>"; "<vscode>"; "v"]));
                    (compiled ["command"; "run"; "vscode"; "k"] (block "2"),
                     (values ["<command>"; "<run>"; "<vscode>"; "v"]));
                    (compiled ["command"; "run"; "vscode"; "k"] (block "1"),
                     (values ["<command>"; "<run>"; "<vscode>"; "v"]))])
                eq_refl) as [Hlength _].
  eexists. split; [reflexivity | exact Hlength].
Defined.

Lemma run_again_calls_the_same_functions_witness :
  exists st2,
    run (fst (run initialRunState (OneString "i + k") someContext))
        (OneString "i + k") someContext
    = (st2,
       inr (SingleCall (compiled ["command"; "run"; "vscode"; "k"] (block "i + k"))
                       (values ["<command>"; "<run>"; "<vscode>"; "v"]))).
Proof.
  exact (run_again_calls_the_same_functions
           initialRunState (OneString "i + k") someContext
           (fst (run initialRunState (OneString "i + k") someContext))
           (SingleCall (compiled ["command"; "run"; "vscode"; "k"] (block "i + k"))
                       (values ["<command>"; "<run>"; "<vscode>"; "v"]))
           eq_refl).
Defined.

Lemma run_fresh_function_arity_witness :
  newAsyncFunction ["command"; "run"; "vscode"; "k"] (block "i + k")
  = inr (compiled ["command"; "run"; "vscode"; "k"] (block "i + k"))
  /\ length (values ["<command>"; "<run>"; "<vscode>"; "v"])
     = length ["command"; "run"; "vscode"; "k"].
Proof.
  destruct (run_fresh_function_arity
              initialRunState "i + k" someContext
              (fst (run initialRunState (OneString "i + k") someContext))
              (compiled ["command"; "run"; "vscode"; "k"] (block "i + k"))
              (values ["<command>"; "<run>"; "<vscode>"; "v"])
              (or_introl (conj eq_refl eq_refl)) eq_refl eq_refl)
    as (Hcompiled & _ & Hlength).
  split; [exact Hcompiled | exact Hlength].
Defined.

(** With the module disabled, the safe expression [i] does not pass the
    validation, and [run] does not refuse it. *)
Lemma validate_rejects_expressions_when_disabled_witness :
  validate (disable initialRunState) "i"
  = (disable initialRunState,
     Some (Error "execution of arbitrary code is disabled"))
  /\ snd (run (disable initialRunState) (OneString "i") [])
     <> inl (Error "execution of arbitrary code is disabled").
Proof.
  destruct (validate_rejects_expressions_when_disabled
              (disable initialRunState) "i" eq_refl eq_refl eq_refl)
    as [[Hempty|Hdisabled] Hrun].
  - discriminate Hempty.
  - split; [exact Hdisabled | exact (Hrun [])].
Defined.

Lemma commands_batches_are_well_formed_witness :
  Forall (@wellFormedBatch (registryWith true)) fourBatches
  /\ @alternating (registryWith true) fourBatches.
Proof.
  exact (@commands_batches_are_well_formed (registryWith true) fourCommands []
           ["input of dance.seek"; "input of dance.prompt"] fourBatches eq_refl).
Defined.



